(** * Upgrade planning: version ranges, interrupts, plan assembly and the
      changeset-spec out-of-band migrator

    A shallow embedding of

    - [internal/oobmigration/version.go]  (package [oobmigration]),
    - [internal/database/migration/cliutil/upgrade_planner.go]
      (package [cliutil]),
    - [enterprise/cmd/worker/internal/batches/migrations/changeset_spec_migrator.go]
      (package [migrations]),

    followed by the properties established about them. *)

From Stdlib Require Import ZArith QArith Lia Ascii.
From stdpp Require Import base decidable option list sorting gmap strings pretty.

Local Open Scope Z_scope.

(** ** Results of fallible Go functions: [(value, error)] pairs of which
       exactly one is meaningful. *)

Inductive result (E A : Type) : Type :=
| Ok (a : A)
| Err (e : E).
Arguments Ok {E A} a.
Arguments Err {E A} e.

(** ** Go's [int] on the 64-bit targets the program is built for. Addition
       wraps around silently. *)

Module GoInt.

Definition minInt : Z := -9223372036854775808.
Definition maxInt : Z := 9223372036854775807.
Definition modulus : Z := 18446744073709551616.

Definition inRange (z : Z) : Prop := minInt <= z <= maxInt.

Definition wrap (z : Z) : Z := (z - minInt) mod modulus + minInt.

Definition add (x y : Z) : Z := wrap (x + y).

(** Indexing a [map[int]int]: an absent key reads as the zero value. *)
Definition index (m : gmap Z Z) (k : Z) : Z := default 0 (m !! k).

End GoInt.

(** ** Go's [strconv.Atoi] *)

Module strconv.

(** The bytes ['0'] to ['9']. *)
Definition isDigit (c : ascii) : bool :=
  (48 <=? Ascii.N_of_ascii c)%N && (Ascii.N_of_ascii c <=? 57)%N.

Definition digitValue (c : ascii) : N := (Ascii.N_of_ascii c - 48)%N.

Fixpoint allDigits (s : string) : bool :=
  match s with
  | EmptyString => true
  | String c r => isDigit c && allDigits r
  end.

(** The number a string of digits denotes in base 10, continuing from [acc]. *)
Fixpoint decimalValue (acc : N) (s : string) : N :=
  match s with
  | EmptyString => acc
  | String c r => decimalValue (10 * acc + digitValue c) r
  end.

Inductive NumError : Type :=
| ErrSyntax
| ErrRange.

(** The sign in front of a number: whether it is ['-'], and what follows a
    leading ['-'] or ['+']. *)
Definition splitSign (s : string) : bool * string :=
  match s with
  | String "-"%char r => (true, r)
  | String "+"%char r => (false, r)
  | _ => (false, s)
  end.

(** [Atoi(s)]: an optional sign and at least one decimal digit, nothing else.
    A value that does not fit an [int] comes back as the nearest [int],
    together with [ErrRange]; a malformed string comes back as 0 with
    [ErrSyntax]. *)
Definition Atoi (s : string) : Z * option NumError :=
  let '(neg, digits) := splitSign s in
  match digits with
  | EmptyString => (0, Some ErrSyntax)
  | String _ _ =>
      if allDigits digits then
        let n := Z.of_N (decimalValue 0 digits) in
        if neg then
          if decide (- GoInt.minInt < n) then (GoInt.minInt, Some ErrRange)
          else (- n, None)
        else
          if decide (GoInt.maxInt < n) then (GoInt.maxInt, Some ErrRange)
          else (n, None)
      else (0, Some ErrSyntax)
  end.

End strconv.

(** ** Package [oobmigration] *)

Module oobmigration.

Record Version : Type := { Major : Z; Minor : Z }.

#[export] Instance Version_eq_dec : EqDecision Version.
Proof. solve_decision. Defined.

Definition NewVersion (major minor : Z) : Version :=
  {| Major := major; Minor := minor |}.

(** The longest run of digits at the start of [s], and what follows it. *)
Fixpoint spanDigits (s : string) : string * string :=
  match s with
  | EmptyString => (EmptyString, EmptyString)
  | String c r =>
      if strconv.isDigit c
      then let '(digits, rest) := spanDigits r in (String c digits, rest)
      else (EmptyString, s)
  end.

(** [v?]: the string without one leading ['v'], if it has one. *)
Definition skipV (v : string) : string :=
  match v with
  | String "v"%char r => r
  | _ => v
  end.

(** [\.]: what follows a leading ['.'], if there is one. *)
Definition afterDot (s : string) : option string :=
  match s with
  | String "."%char r => Some r
  | _ => None
  end.

(** [versionPattern.FindStringSubmatch(v)] for
    [versionPattern = ^v?(\d+)\.(\d+)(?:\.\d+)?$]: the whole match and the two
    groups, or nil when [v] does not match. Digits, ['v'] and ['.'] are
    disjoint, so the pattern matches in at most one way: each [\d+] takes the
    whole run of digits in front of it. *)
Definition versionPatternFindStringSubmatch (v : string) : list string :=
  let '(major, afterMajor) := spanDigits (skipV v) in
  match major, afterDot afterMajor with
  | String _ _, Some r =>
      let '(minor, afterMinor) := spanDigits r in
      match minor, afterMinor, afterDot afterMinor with
      | String _ _, EmptyString, _ => [v; major; minor]
      | String _ _, _, Some r' =>
          match spanDigits r' with
          | (String _ _, EmptyString) => [v; major; minor]
          | _ => []
          end
      | _, _, _ => []
      end
  | _, _ => []
  end.

(** [NewVersionFromString]; the errors of [Atoi] are dropped, as in
    [major, _ := strconv.Atoi(matches[1])]. *)
Definition NewVersionFromString (v : string) : Version * bool :=
  let matches := versionPatternFindStringSubmatch v in
  if decide (3 <= length matches)%nat then
    let major := fst (strconv.Atoi (default EmptyString (matches !! 1%nat))) in
    let minor := fst (strconv.Atoi (default EmptyString (matches !! 2%nat))) in
    (NewVersion major minor, true)
  else (NewVersion 0 0, false).

(** What [\d+] matches: a string of digits that is not empty. *)
Definition digits (s : string) : Prop :=
  s <> EmptyString /\ strconv.allDigits s = true.

(** Whether no byte of [s] is ['.']. *)
Fixpoint noDot (s : string) : bool :=
  match s with
  | EmptyString => true
  | String c r => negb (Ascii.eqb c ".") && noDot r
  end.

(** The number a group of digits denotes, capped at the largest [int]. *)
Definition groupValue (group : string) : Z :=
  Z.min (Z.of_N (strconv.decimalValue 0 group)) GoInt.maxInt.

(** The strings [versionPattern] describes, read off the pattern: an optional
    [v], digits, a dot, digits, and optionally a dot and more digits. *)
Definition versionSyntax (v major minor : string) : Prop :=
  exists prefix suffix,
    v = prefix +:+ major +:+ "." +:+ minor +:+ suffix
    /\ (prefix = EmptyString \/ prefix = "v")
    /\ digits major /\ digits minor
    /\ (suffix = EmptyString
        \/ exists patch, suffix = "." +:+ patch /\ digits patch).

(** [fmt.Sprintf("%d.%d", v.Major, v.Minor)] *)
Definition String (v : Version) : string :=
  pretty (Major v) +:+ "." +:+ pretty (Minor v).

(** [fmt.Sprintf("v%d.%d.0", v.Major, v.Minor)] *)
Definition GitTag (v : Version) : string :=
  "v" +:+ pretty (Major v) +:+ "." +:+ pretty (Minor v) +:+ ".0".

Inductive VersionOrder : Type :=
| VersionOrderBefore
| VersionOrderEqual
| VersionOrderAfter.

#[export] Instance VersionOrder_eq_dec : EqDecision VersionOrder.
Proof. solve_decision. Defined.

(** The body of the [for _, pair := range ...] loop of [CompareVersions]. *)
Fixpoint comparePairs (pairs : list (Z * Z)) : VersionOrder :=
  match pairs with
  | [] => VersionOrderEqual
  | (x, y) :: rest =>
      if x <? y then VersionOrderBefore
      else if x >? y then VersionOrderAfter
      else comparePairs rest
  end.

Definition CompareVersions (a b : Version) : VersionOrder :=
  comparePairs [(Major a, Major b); (Minor a, Minor b)].

(** [var lastInSeries = map[int]int{3: 47}] *)
Definition lastInSeries : gmap Z Z := {[ 3 := 47 ]}.

Definition bump (v : Version) : Version :=
  if decide (GoInt.index lastInSeries (Major v) = Minor v)
  then NewVersion (GoInt.add (Major v) 1) 0
  else NewVersion (Major v) (GoInt.add (Minor v) 1).

(** [errors.Newf("invalid range (from=%s > to=%s)", from, to)] *)
Definition invalidRange (from to : Version) : string :=
  "invalid range (from=" +:+ String from +:+ " > to=" +:+ String to +:+ ")".

(** The [for v := from; CompareVersions(v, to) != VersionOrderAfter; v = bump(v)]
    loop; [versions] is the slice appended to. The loop has no bound of its
    own, so the embedding counts iterations down from [fuel]: the iterations
    the process is given the time for and, with one version appended in each,
    the versions it is given the memory for. The result is [None], the call
    does not return, when they run out before the loop condition fails, and
    when [append] is asked for a slice longer than the largest [int], which
    [len] cannot count. *)
Fixpoint upgradeLoop (fuel : nat) (to v : Version) (versions : list Version)
  : option (list Version) :=
  match fuel with
  | O => None
  | S fuel' =>
      if decide (CompareVersions v to ≠ VersionOrderAfter)
      then if decide (Z.of_nat (length versions) < GoInt.maxInt)
           then upgradeLoop fuel' to (bump v) (versions ++ [v])
           else None
      else Some versions
  end.

Definition MakeUpgradeRange (fuel : nat) (from to : Version)
  : option (result string (list Version)) :=
  if decide (CompareVersions from to = VersionOrderAfter)
  then Some (Err (invalidRange from to))
  else Ok <$> upgradeLoop fuel to from [].

(** The versions a Go [Version] can hold: both fields are [int]s. *)
Definition representable (v : Version) : Prop :=
  GoInt.inRange (Major v) /\ GoInt.inRange (Minor v).

(** The versions [v], [bump v], ..., up to the [n]-th bump of [v]. *)
Fixpoint bumpChain (v : Version) (n : nat) : list Version :=
  match n with
  | O => [v]
  | S n' => v :: bumpChain (bump v) n'
  end.

(** [pointIntersectsInterval] returns true if point falls within the interval
    [[lower, upper]]. *)
Definition pointIntersectsInterval (lower upper point : Version) : bool :=
  bool_decide (CompareVersions point lower ≠ VersionOrderBefore)
  && bool_decide (CompareVersions upper point ≠ VersionOrderBefore).

(** The entries [planUpgrade] reads off the schedule: [interrupt.Version]
    and [interrupt.MigrationIDs]. *)
Module MigrationInterrupt.
Record t : Type := { Version : oobmigration.Version; MigrationIDs : list Z }.
End MigrationInterrupt.

(** Modelled from the spec: a record of the out-of-band migration registry,
    whose declaration is not among the sources at hand. The spec (§3) gives
    it an identifier and the validity interval
    [[introducedAt, deprecatedAt)]. *)
Record OutOfBandMigration : Type :=
  { ID : Z; Introduced : Version; Deprecated : Version }.

(** Modelled from the spec: the test "[deprecatedAt] falls strictly inside
    [(from, to]]" of §4.4. *)
Definition crossedBy (from to point : Version) : bool :=
  bool_decide (CompareVersions from point = VersionOrderBefore)
  && bool_decide (CompareVersions point to ≠ VersionOrderAfter).

(** Modelled from the spec: "record an interrupt entry keyed by
    [deprecatedAt] containing that migration's ID", where entries "sharing the
    same version are merged into one entry listing all such IDs" and the
    sequence is kept "strictly ordered by version ascending" (§4.4). *)
Fixpoint recordInterrupt (version : Version) (id : Z)
    (interrupts : list MigrationInterrupt.t) : list MigrationInterrupt.t :=
  match interrupts with
  | [] => [ MigrationInterrupt.Build_t version [id] ]
  | i :: rest =>
      match CompareVersions version (MigrationInterrupt.Version i) with
      | VersionOrderBefore => MigrationInterrupt.Build_t version [id] :: i :: rest
      | VersionOrderEqual =>
          MigrationInterrupt.Build_t (MigrationInterrupt.Version i)
            (MigrationInterrupt.MigrationIDs i ++ [id]) :: rest
      | VersionOrderAfter => i :: recordInterrupt version id rest
      end
  end.

(** Modelled from the spec: [scheduleInterrupts(versionRange,
    registeredMigrations)] of §4.4, the contract of
    [ScheduleMigrationInterrupts], whose source is not among the sources at
    hand. The range enters through its two ends, as at the call site in
    [planUpgrade]. *)
Definition scheduleInterrupts (from to : Version)
    (registeredMigrations : list OutOfBandMigration) : list MigrationInterrupt.t :=
  foldl (fun interrupts m =>
           if crossedBy from to (Deprecated m)
           then recordInterrupt (Deprecated m) (ID m) interrupts
           else interrupts)
        [] registeredMigrations.

(** The order of a schedule: each entry's version is before the next one's. *)
Definition interruptBefore (i j : MigrationInterrupt.t) : Prop :=
  CompareVersions (MigrationInterrupt.Version i) (MigrationInterrupt.Version j)
  = VersionOrderBefore.

(** The IDs a schedule lists at [version], if it has an entry there. *)
Fixpoint entryAt (version : Version) (interrupts : list MigrationInterrupt.t)
  : option (list Z) :=
  match interrupts with
  | [] => None
  | i :: rest =>
      if decide (MigrationInterrupt.Version i = version)
      then Some (MigrationInterrupt.MigrationIDs i)
      else entryAt version rest
  end.

(** The IDs of the registered migrations deprecated at [version], in
    registration order. *)
Definition idsDeprecatedAt (version : Version)
    (registeredMigrations : list OutOfBandMigration) : list Z :=
  ID <$> filter (fun m => Deprecated m = version) registeredMigrations.

End oobmigration.

Import oobmigration.

(** ** Package [cliutil]: the upgrade planner *)

Module cliutil.

Record upgradeStep : Type :=
  { InstanceVersion : Version;
    LeafMigrationIDsBySchema : gmap string (list Z);
    OutOfBandMigrationIDs : list Z }.

(** The two collaborators [planUpgrade] consults. The planner's observable
    effect is the sequence of calls it makes to them. *)
Inductive Call : Type :=
| CallStitchDefinitions (schemaName root : string) (revs : list string)
| CallScheduleMigrationInterrupts (from to : Version).

(** [ "/Users/efritz/dev/sourcegraph/sourcegraph" ] *)
Definition repositoryRoot : string := "/Users/efritz/dev/sourcegraph/sourcegraph".

(** [gitTags]: the tag of every version, in order. *)
Definition gitTags (versions : list Version) : list string :=
  foldl (fun tags version => tags ++ [GitTag version]) [] versions.

(** What [runUpgrade] writes to standard output, one entry per [fmt.Printf]
    call. The lines for the schemas of a step come out of ranging over a map,
    whose order Go leaves unspecified: they are kept together as the map they
    are printed from. *)
Inductive Printed : Type :=
| PrintedPlan
| PrintedUpgradeSchemas (instanceVersion : string)
| PrintedUpgradeSchema (leafMigrationIDsBySchema : gmap string (list Z))
| PrintedRunOutOfBand
| PrintedWaitForOutOfBand (id : Z).

(** What [runUpgrade] prints for one step. *)
Definition printStep (step : upgradeStep) : list Printed :=
  [ PrintedUpgradeSchemas (String (InstanceVersion step));
    PrintedUpgradeSchema (LeafMigrationIDsBySchema step) ]
  ++ (if decide (0 < length (OutOfBandMigrationIDs step))%nat
      then PrintedRunOutOfBand
           :: foldl (fun out id => out ++ [PrintedWaitForOutOfBand id]) []
                (OutOfBandMigrationIDs step)
      else []).

(** [runUpgrade]: what it prints and the error it returns. *)
Definition runUpgrade (steps : list upgradeStep) : list Printed * option string :=
  (foldl (fun out step => out ++ printStep step) [PrintedPlan] steps,
   Some "unimplemented tho").

(** The IDs of the lines "Wait for out of band migration #id to complete"
    of an output, in the order printed. *)
Definition waitedFor (out : list Printed) : list Z :=
  flat_map (fun p => match p with PrintedWaitForOutOfBand id => [id] | _ => [] end) out.

(** The versions of the lines "Upgrade schemas to version:" of an output, in
    the order printed. *)
Definition upgradedTo (out : list Printed) : list string :=
  flat_map (fun p => match p with PrintedUpgradeSchemas v => [v] | _ => [] end) out.

(** The maps of the lines "Upgrade schema ... leaves=..." of an output, one
    map per step, in the order printed. *)
Definition upgradedSchemas (out : list Printed) : list (gmap string (list Z)) :=
  flat_map (fun p => match p with PrintedUpgradeSchema m => [m] | _ => [] end) out.

(** The IDs of the lines "Wait for out of band migration #id to complete" an
    output starts with. *)
Fixpoint leadingWaits (out : list Printed) : list Z :=
  match out with
  | PrintedWaitForOutOfBand id :: rest => id :: leadingWaits rest
  | _ => []
  end.

(** The out-of-band sections of an output, in the order printed: for every
    line "Run/validate out of band migrations:", the IDs of the "Wait for"
    lines that follow it directly. *)
Fixpoint outOfBandSections (out : list Printed) : list (list Z) :=
  match out with
  | [] => []
  | PrintedRunOutOfBand :: rest => leadingWaits rest :: outOfBandSections rest
  | _ :: rest => outOfBandSections rest
  end.

(** The errors of the [upgrade] command: those it makes itself with
    [errors.New] and [errors.Newf], and those of its collaborators. *)
Inductive commandError (E : Type) : Type :=
| errorsNew (text : string)
| collaboratorError (e : E).
Arguments errorsNew {E} text.
Arguments collaboratorError {E} e.

Section planner.

(** [definition.Definitions] and Go's [error] are opaque to the planner. *)
Context {Definitions E : Type}.

(** [schemas.SchemaNames], [stitch.StitchDefinitions] and
    [oobmigration.ScheduleMigrationInterrupts] live outside the planner. *)
Variable SchemaNames : list string.
Variable StitchDefinitions :
  string -> string -> list string -> result E (Definitions * gmap string (list Z)).
Variable ScheduleMigrationInterrupts :
  Version -> Version -> result E (list MigrationInterrupt.t).

Record migrationGraphMetadata : Type :=
  { definitions : Definitions; leafIDsByRev : gmap string (list Z) }.

(** Computations that may fail and that log their calls to collaborators. *)
Definition M (A : Type) : Type := list Call -> list Call * result E A.

Definition ret {A : Type} (a : A) : M A := fun log => (log, Ok a).

Definition bind {A B : Type} (m : M A) (k : A -> M B) : M B :=
  fun log =>
    match m log with
    | (log', Ok a) => k a log'
    | (log', Err e) => (log', Err e)
    end.

Definition stitch (schemaName root : string) (revs : list string)
  : M (Definitions * gmap string (list Z)) :=
  fun log => (log ++ [CallStitchDefinitions schemaName root revs],
              StitchDefinitions schemaName root revs).

Definition schedule (from to : Version) : M (list MigrationInterrupt.t) :=
  fun log => (log ++ [CallScheduleMigrationInterrupts from to],
              ScheduleMigrationInterrupts from to).

(** The [for _, schemaName := range schemas.SchemaNames] loop. *)
Fixpoint metadataLoop (schemaNames : list string) (versionRange : list Version)
    (metadataBySchemaName : gmap string migrationGraphMetadata)
  : M (gmap string migrationGraphMetadata) :=
  match schemaNames with
  | [] => ret metadataBySchemaName
  | schemaName :: rest =>
      bind (stitch schemaName repositoryRoot (gitTags versionRange))
        (fun '(definitions, leafIDsByRev) =>
           metadataLoop rest versionRange
             (<[schemaName := Build_migrationGraphMetadata definitions leafIDsByRev]>
                metadataBySchemaName))
  end.

Definition metadataBySchemaNameForVersion (versionRange : list Version)
  : M (gmap string migrationGraphMetadata) :=
  metadataLoop SchemaNames versionRange ∅.

(** The closure [makeUpgradeStep] of [planUpgrade]; a revision absent from
    [leafIDsByRev] reads as the nil slice. *)
Definition makeUpgradeStep
    (metadataBySchemaName : gmap string migrationGraphMetadata)
    (version : Version) (migrationIDs : list Z) : upgradeStep :=
  {| InstanceVersion := version;
     LeafMigrationIDsBySchema :=
       (fun metadata => default [] (leafIDsByRev metadata !! GitTag version))
         <$> metadataBySchemaName;
     OutOfBandMigrationIDs := migrationIDs |}.

Definition planUpgrade (versionRange : list Version) : M (list upgradeStep) :=
  match versionRange with
  | [] => ret []
  | from :: _ =>
      let to := List.last versionRange from in
      bind (metadataBySchemaNameForVersion versionRange) (fun metadataBySchemaName =>
      bind (schedule from to) (fun interrupts =>
      let steps :=
        foldl (fun steps interrupt =>
                 steps ++ [makeUpgradeStep metadataBySchemaName
                             (MigrationInterrupt.Version interrupt)
                             (MigrationInterrupt.MigrationIDs interrupt)])
              [] interrupts in
      ret (steps ++ [makeUpgradeStep metadataBySchemaName to []])))
  end.

(** The action of the [upgrade] command built by [Upgrade], on the values of
    its [-from] and [-to] flags: the calls made to collaborators, what is
    printed, and the error returned ([None] for nil). The result is [None]
    when [MakeUpgradeRange] does not return. *)
Definition Upgrade (fuel : nat) (fromFlag toFlag : string) (log : list Call)
  : option (list Call * list Printed * option (commandError E)) :=
  let '(from, ok) := NewVersionFromString fromFlag in
  if negb ok then Some (log, [], Some (errorsNew "bad format for -from"))
  else
    let '(to, ok) := NewVersionFromString toFlag in
    if negb ok then Some (log, [], Some (errorsNew "bad format for -to"))
    else
      match MakeUpgradeRange fuel from to with
      | None => None
      | Some (Err err) => Some (log, [], Some (errorsNew err))
      | Some (Ok versionRange) =>
          match planUpgrade versionRange log with
          | (log', Err err) => Some (log', [], Some (collaboratorError err))
          | (log', Ok steps) =>
              match runUpgrade steps with
              | (out, Some err) => Some (log', out, Some (errorsNew err))
              | (out, None) => Some (log', out, None)
              end
          end
      end.

End planner.

End cliutil.

(** ** Package [migrations]: the changeset-spec migrator *)

Module migrations.

Definition changesetSpecMigrationCountPerRun : Z := 100.

(** A row of [changeset_specs]: its key, the [migrated] flag the migrator
    reads and writes, and the remaining columns. *)
Record changesetSpecRow : Type :=
  { id : Z; migrated : bool; columns : string }.

(** The store as one call of the migrator finds it: the table, and whether
    the connection is broken at the time of that call (its statement then
    fails with that error). The state of the connection is the store's
    own: it can change between two calls, so every call can fail on its
    own, whatever the calls before it did. *)
Record Store : Type :=
  { changeset_specs : list changesetSpecRow; broken : option string }.

(** [SELECT COUNT( * ) FROM changeset_specs WHERE migrated] *)
Definition countMigrated (rows : list changesetSpecRow) : Z :=
  Z.of_nat (length (filter (fun r => migrated r = true) rows)).

(** [SELECT COUNT( * ) FROM changeset_specs] *)
Definition countAll (rows : list changesetSpecRow) : Z :=
  Z.of_nat (length rows).

(** [changesetSpecMigratorProgressQuery]. Both counts are cast to [float] and
    divided; the quotient of two counts is kept as an exact fraction. *)
Definition changesetSpecMigratorProgressQuery (rows : list changesetSpecRow) : Q :=
  let c1 := countMigrated rows in
  let c2 := countAll rows in
  if decide (c2 = 0) then 1%Q
  else (inject_Z (c2 - c1) / inject_Z c2)%Q.

Definition Progress (s : Store) : result string Q :=
  match broken s with
  | Some err => Err err
  | None => Ok (changesetSpecMigratorProgressQuery (changeset_specs s))
  end.

(** [changesetSpecMigratorDownQuery]:
    [UPDATE changeset_specs SET migrated = FALSE WHERE 1 = 1]. *)
Definition changesetSpecMigratorDownQuery (rows : list changesetSpecRow)
  : list changesetSpecRow :=
  (fun r =>
     if decide (1 = 1)
     then {| id := id r; migrated := false; columns := columns r |}
     else r) <$> rows.

(** [Down]: the store after the call, and the error returned, if any. *)
Definition Down (s : Store) : Store * option string :=
  match broken s with
  | Some err => (s, Some err)
  | None =>
      ({| changeset_specs := changesetSpecMigratorDownQuery (changeset_specs s);
          broken := None |}, None)
  end.

(** The rows on which two states of the table disagree on [migrated]. *)
Fixpoint changedRows (before after : list changesetSpecRow) : Z :=
  match before, after with
  | r :: before', r' :: after' =>
      (if decide (migrated r = migrated r') then 0 else 1) + changedRows before' after'
  | _, _ => 0
  end.

(** [store.ListChangesetSpecsOpts], as far as [Up] fills it in. *)
Record ListChangesetSpecsOpts : Type :=
  { Limit : Z; RequiresMigration : bool }.

(** [errors.Wrap(err, message)] *)
Inductive wrapped (E : Type) : Type :=
| Wrap (err : E) (message : string).
Arguments Wrap {E} err message.

Section up.

(** The transaction handle, the changeset specs and the errors of the store
    are opaque to the migrator. *)
Context {Tx Spec E : Type}.

(** What [Up] asks of the store, in the order asked. *)
Inductive UpCall : Type :=
| CallTransact
| CallListChangesetSpecs (opts : ListChangesetSpecsOpts)
| CallMigrateChangesetSpec (cs : Spec)
| CallDone (err : option (wrapped E)).

(** The store methods [Up] calls live outside the migrator:
    [m.store.Transact], [tx.ListChangesetSpecs], [tx.MigrateChangesetSpec]
    and [tx.Done]. A call on the transaction may change it. *)
Variable Transact : result E Tx.
Variable ListChangesetSpecs : Tx -> ListChangesetSpecsOpts -> Tx * result E (list Spec).
Variable MigrateChangesetSpec : Tx -> Spec -> Tx * option E.
Variable Done : Tx -> option (wrapped E) -> option (wrapped E).

(** The [for _, cs := range specs] loop of [Up]. *)
Fixpoint migrateLoop (tx : Tx) (specs : list Spec) (calls : list UpCall)
  : Tx * list UpCall * option (wrapped E) :=
  match specs with
  | [] => (tx, calls, None)
  | cs :: rest =>
      match MigrateChangesetSpec tx cs with
      | (tx', Some err) =>
          (tx', calls ++ [CallMigrateChangesetSpec cs],
           Some (Wrap err "migrating changeset spec"))
      | (tx', None) => migrateLoop tx' rest (calls ++ [CallMigrateChangesetSpec cs])
      end
  end.

(** The transaction after [MigrateChangesetSpec] has been called on each of
    [specs] in turn. *)
Definition migratedTx (tx : Tx) (specs : list Spec) : Tx :=
  foldl (fun tx cs => fst (MigrateChangesetSpec tx cs)) tx specs.

(** The closure [f] of [Up]. *)
Definition upBody (tx : Tx) (calls : list UpCall)
  : Tx * list UpCall * option (wrapped E) :=
  let opts := {| Limit := changesetSpecMigrationCountPerRun;
                 RequiresMigration := true |} in
  match ListChangesetSpecs tx opts with
  | (tx', Err err) =>
      (tx', calls ++ [CallListChangesetSpecs opts],
       Some (Wrap err "listing changeset specs"))
  | (tx', Ok specs) => migrateLoop tx' specs (calls ++ [CallListChangesetSpecs opts])
  end.

(** [Up]: the calls made to the store and the error returned. *)
Definition Up : list UpCall * option (wrapped E) :=
  match Transact with
  | Err err => ([CallTransact], Some (Wrap err "starting transaction"))
  | Ok tx =>
      let '(tx', calls, err) := upBody tx [CallTransact] in
      (calls ++ [CallDone err], Done tx' err)
  end.

End up.

End migrations.

(** ** A sample instance: an upgrade from 3.46 to 4.0 over two schemas and
       a registry of five out-of-band migrations *)

Module sample.

Definition versionRange : list Version :=
  [NewVersion 3 46; NewVersion 3 47; NewVersion 4 0].

Definition registry : list OutOfBandMigration :=
  [ {| ID := 1; Introduced := NewVersion 3 30; Deprecated := NewVersion 3 47 |};
    {| ID := 2; Introduced := NewVersion 3 40; Deprecated := NewVersion 4 0 |};
    {| ID := 3; Introduced := NewVersion 3 42; Deprecated := NewVersion 3 47 |};
    {| ID := 4; Introduced := NewVersion 3 20; Deprecated := NewVersion 3 46 |};
    {| ID := 5; Introduced := NewVersion 3 45; Deprecated := NewVersion 4 1 |} ].

Definition SchemaNames : list string := ["frontend"; "codeintel"].

Definition frontendLeaves : gmap string (list Z) :=
  {[ "v3.46.0" := [10]; "v3.47.0" := [11; 12]; "v4.0.0" := [13] ]}.

Definition codeintelLeaves : gmap string (list Z) :=
  {[ "v3.46.0" := [20]; "v3.47.0" := [20]; "v4.0.0" := [21] ]}.

Definition StitchDefinitions (schemaName root : string) (revs : list string)
  : result string (unit * gmap string (list Z)) :=
  if decide (schemaName = "frontend") then Ok (tt, frontendLeaves)
  else if decide (schemaName = "codeintel") then Ok (tt, codeintelLeaves)
  else Err "unknown schema".

Definition ScheduleMigrationInterrupts (from to : Version)
  : result string (list MigrationInterrupt.t) :=
  Ok (scheduleInterrupts from to registry).

Definition steps : list cliutil.upgradeStep :=
  [ {| cliutil.InstanceVersion := NewVersion 3 47;
       cliutil.LeafMigrationIDsBySchema := {[ "frontend" := [11; 12]; "codeintel" := [20] ]};
       cliutil.OutOfBandMigrationIDs := [1; 3] |};
    {| cliutil.InstanceVersion := NewVersion 4 0;
       cliutil.LeafMigrationIDsBySchema := {[ "frontend" := [13]; "codeintel" := [21] ]};
       cliutil.OutOfBandMigrationIDs := [2] |};
    {| cliutil.InstanceVersion := NewVersion 4 0;
       cliutil.LeafMigrationIDsBySchema := {[ "frontend" := [13]; "codeintel" := [21] ]};
       cliutil.OutOfBandMigrationIDs := [] |} ].

Definition calls : list cliutil.Call :=
  [ cliutil.CallStitchDefinitions "frontend" cliutil.repositoryRoot
      ["v3.46.0"; "v3.47.0"; "v4.0.0"];
    cliutil.CallStitchDefinitions "codeintel" cliutil.repositoryRoot
      ["v3.46.0"; "v3.47.0"; "v4.0.0"];
    cliutil.CallScheduleMigrationInterrupts (NewVersion 3 46) (NewVersion 4 0) ].

(** Schema names of which the second is one the sample [StitchDefinitions]
    does not know. *)
Definition SchemaNamesWithUnknown : list string :=
  ["frontend"; "codeinsights"; "codeintel"].

(** What a successful stitching of the sample returns, and the calls made. *)
Definition metadata : gmap string (@cliutil.migrationGraphMetadata unit) :=
  {[ "frontend" := cliutil.Build_migrationGraphMetadata tt frontendLeaves;
     "codeintel" := cliutil.Build_migrationGraphMetadata tt codeintelLeaves ]}.

Definition stitchCalls : list cliutil.Call :=
  [ cliutil.CallStitchDefinitions "frontend" cliutil.repositoryRoot
      ["v3.46.0"; "v3.47.0"; "v4.0.0"];
    cliutil.CallStitchDefinitions "codeintel" cliutil.repositoryRoot
      ["v3.46.0"; "v3.47.0"; "v4.0.0"] ].

(** The calls made when stitching stops at the unknown schema. *)
Definition stitchCallsUnknown : list cliutil.Call :=
  [ cliutil.CallStitchDefinitions "frontend" cliutil.repositoryRoot
      ["v3.46.0"; "v3.47.0"; "v4.0.0"];
    cliutil.CallStitchDefinitions "codeinsights" cliutil.repositoryRoot
      ["v3.46.0"; "v3.47.0"; "v4.0.0"] ].

(** What [runUpgrade] prints for the sample plan. *)
Definition printed : list cliutil.Printed :=
  [ cliutil.PrintedPlan;
    cliutil.PrintedUpgradeSchemas "3.47";
    cliutil.PrintedUpgradeSchema {[ "frontend" := [11; 12]; "codeintel" := [20] ]};
    cliutil.PrintedRunOutOfBand;
    cliutil.PrintedWaitForOutOfBand 1;
    cliutil.PrintedWaitForOutOfBand 3;
    cliutil.PrintedUpgradeSchemas "4.0";
    cliutil.PrintedUpgradeSchema {[ "frontend" := [13]; "codeintel" := [21] ]};
    cliutil.PrintedRunOutOfBand;
    cliutil.PrintedWaitForOutOfBand 2;
    cliutil.PrintedUpgradeSchemas "4.0";
    cliutil.PrintedUpgradeSchema {[ "frontend" := [13]; "codeintel" := [21] ]} ].

(** A store for [Up]: the transaction holds the specs migrated so far, three
    specs require migration, and migrating the second one fails. *)
Definition Transact : result string (list Z) := Ok [].

Definition ListChangesetSpecs (tx : list Z) (opts : migrations.ListChangesetSpecsOpts)
  : list Z * result string (list Z) :=
  (tx, Ok [10; 20; 30]).

Definition MigrateChangesetSpec (tx : list Z) (cs : Z) : list Z * option string :=
  if decide (cs = 20) then (tx, Some "deadlock") else (tx ++ [cs], None).

Definition Done (tx : list Z) (err : option (migrations.wrapped string))
  : option (migrations.wrapped string) := err.

Definition upCalls : list (@migrations.UpCall Z string) :=
  [ migrations.CallTransact;
    migrations.CallListChangesetSpecs
      {| migrations.Limit := 100; migrations.RequiresMigration := true |};
    migrations.CallMigrateChangesetSpec 10;
    migrations.CallMigrateChangesetSpec 20;
    migrations.CallDone (Some (migrations.Wrap "deadlock" "migrating changeset spec")) ].

(** A store of [n] rows, all migrated. *)
Definition allMigrated (n : nat) : migrations.Store :=
  {| migrations.changeset_specs :=
       (fun k => {| migrations.id := Z.of_nat k;
                    migrations.migrated := true;
                    migrations.columns := "spec" |}) <$> seq 1 n;
     migrations.broken := None |}.

(** A store of one row, not migrated. *)
Definition oneUnmigrated : migrations.Store :=
  {| migrations.changeset_specs :=
       [ {| migrations.id := 1; migrations.migrated := false;
            migrations.columns := "spec" |} ];
     migrations.broken := None |}.

End sample.

(** * Properties *)

(** ** Version order *)

(** Decide every comparison in a goal about [CompareVersions] and leave
    linear arithmetic over the components. *)
Ltac compare_cases :=
  unfold CompareVersions, comparePairs in *;
  cbn [Major Minor NewVersion] in *;
  rewrite ?Z.gtb_ltb in *;
  repeat match goal with
         | H : context [ ?x <? ?y ] |- _ => destruct (Z.ltb_spec x y)
         | |- context [ ?x <? ?y ] => destruct (Z.ltb_spec x y)
         end;
  try discriminate; try lia.

Lemma CompareVersions_Before (a b : Version) :
  CompareVersions a b = VersionOrderBefore
  <-> Major a < Major b \/ (Major a = Major b /\ Minor a < Minor b).
Proof. split; intros H; compare_cases; auto. Qed.

Lemma CompareVersions_After (a b : Version) :
  CompareVersions a b = VersionOrderAfter
  <-> Major b < Major a \/ (Major a = Major b /\ Minor b < Minor a).
Proof. split; intros H; compare_cases; auto. Qed.

Lemma CompareVersions_Equal (a b : Version) :
  CompareVersions a b = VersionOrderEqual <-> a = b.
Proof.
  split.
  - intros H. destruct a as [a1 a2], b as [b1 b2]. compare_cases.
    f_equal; lia.
  - intros ->. compare_cases. reflexivity.
Qed.

Lemma CompareVersions_not_After (a b : Version) :
  CompareVersions a b <> VersionOrderAfter
  <-> Major a < Major b \/ (Major a = Major b /\ Minor a <= Minor b).
Proof.
  rewrite CompareVersions_After. lia.
Qed.

Lemma CompareVersions_Before_trans (a b c : Version) :
  CompareVersions a b = VersionOrderBefore ->
  CompareVersions b c = VersionOrderBefore ->
  CompareVersions a c = VersionOrderBefore.
Proof. rewrite !CompareVersions_Before. lia. Qed.

Lemma CompareVersions_flip (a b : Version) :
  CompareVersions a b = VersionOrderBefore <-> CompareVersions b a = VersionOrderAfter.
Proof. rewrite CompareVersions_Before, CompareVersions_After. lia. Qed.

(** C9. [CompareVersions] is a strict total order, lexicographic by major
    then minor: every version is equal to itself and only to itself, [a] is
    before [b] exactly when [b] is after [a], and "before" is transitive. *)
Theorem CompareVersions_strict_total_order :
  (forall v, CompareVersions v v = VersionOrderEqual)
  /\ (forall a b, CompareVersions a b = VersionOrderBefore
                  <-> CompareVersions b a = VersionOrderAfter)
  /\ (forall a b c, CompareVersions a b = VersionOrderBefore ->
                    CompareVersions b c = VersionOrderBefore ->
                    CompareVersions a c = VersionOrderBefore)
  /\ (forall a b, CompareVersions a b = VersionOrderEqual <-> a = b)
  /\ (forall a b, CompareVersions a b = VersionOrderBefore
                  <-> Major a < Major b \/ (Major a = Major b /\ Minor a < Minor b)).
Proof.
  split; [| split; [| split; [| split]]].
  - intros v. by apply CompareVersions_Equal.
  - apply CompareVersions_flip.
  - apply CompareVersions_Before_trans.
  - apply CompareVersions_Equal.
  - apply CompareVersions_Before.
Qed.

(** ** Go integers *)

Ltac unfold_int :=
  unfold GoInt.add, GoInt.wrap, GoInt.inRange, GoInt.minInt, GoInt.maxInt,
    GoInt.modulus in *.

Lemma wrap_inRange (z : Z) : GoInt.inRange (GoInt.wrap z).
Proof.
  unfold_int.
  pose proof (Z.mod_pos_bound (z - -9223372036854775808) 18446744073709551616).
  lia.
Qed.

Lemma wrap_id (z : Z) : GoInt.inRange z -> GoInt.wrap z = z.
Proof.
  unfold_int. intros Hz.
  rewrite Z.mod_small by lia. lia.
Qed.

Lemma add_1_below_max (z : Z) :
  GoInt.minInt <= z < GoInt.maxInt -> GoInt.add z 1 = z + 1.
Proof.
  intros Hz. unfold GoInt.add. apply wrap_id. unfold_int. lia.
Qed.

Lemma add_1_at_max : GoInt.add GoInt.maxInt 1 = GoInt.minInt.
Proof. reflexivity. Qed.

(** ** [bump] *)

(** What the lookup [lastInSeries[major]] yields: the registered 47 for
    major 3, and the zero value for every other major. *)
Lemma lastInSeries_index (major : Z) :
  GoInt.index lastInSeries major = if decide (major = 3) then 47 else 0.
Proof.
  unfold GoInt.index, lastInSeries.
  destruct (decide (major = 3)) as [->|Hne].
  - by rewrite lookup_singleton_eq.
  - by rewrite lookup_singleton_ne.
Qed.

Lemma bump_rollover (v : Version) :
  GoInt.index lastInSeries (Major v) = Minor v ->
  bump v = NewVersion (GoInt.add (Major v) 1) 0.
Proof. intros H. unfold bump. by rewrite decide_True. Qed.

Lemma bump_minor (v : Version) :
  GoInt.index lastInSeries (Major v) <> Minor v ->
  bump v = NewVersion (Major v) (GoInt.add (Minor v) 1).
Proof. intros H. unfold bump. by rewrite decide_False. Qed.

(** Outside major 3 the lookup misses, reads as 0, and so a version with
    minor 0 is taken for the last of its series. *)
Lemma bump_unregistered_major (major : Z) :
  major <> 3 -> bump (NewVersion major 0) = NewVersion (GoInt.add major 1) 0.
Proof.
  intros Hne. apply bump_rollover. rewrite lastInSeries_index.
  cbn [Major Minor NewVersion]. by rewrite decide_False.
Qed.

(** C8. [bump({3,47}) = {4,0}] and [bump({3,10}) = {3,11}]: 47 is the
    registered last minor of major 3, where [bump] moves to [{4,0}]; at every
    other minor of major 3 [bump] keeps the major and adds one to the minor.
    For any version, [bump] moves to the next major with minor 0 when
    [lastInSeries[v.Major]] equals the minor, and otherwise changes the
    minor only, by adding one. *)
Theorem bump_major_3 :
  bump (NewVersion 3 47) = NewVersion 4 0
  /\ bump (NewVersion 3 10) = NewVersion 3 11
  /\ lastInSeries !! 3 = Some 47
  /\ (forall minor, minor <> 47 ->
        bump (NewVersion 3 minor) = NewVersion 3 (GoInt.add minor 1))
  /\ (forall v, GoInt.index lastInSeries (Major v) = Minor v ->
        bump v = NewVersion (GoInt.add (Major v) 1) 0)
  /\ (forall v, GoInt.index lastInSeries (Major v) <> Minor v ->
        bump v = NewVersion (Major v) (GoInt.add (Minor v) 1))
  /\ (forall z, GoInt.minInt <= z < GoInt.maxInt -> GoInt.add z 1 = z + 1).
Proof.
  split; [| split; [| split; [| split; [| split; [| split]]]]].
  - apply bump_rollover. by rewrite lastInSeries_index.
  - by rewrite bump_minor by (by rewrite lastInSeries_index).
  - apply lookup_singleton_eq.
  - intros minor Hne. apply bump_minor. rewrite lastInSeries_index.
    cbn [Major Minor NewVersion]. rewrite decide_True by done. congruence.
  - apply bump_rollover.
  - apply bump_minor.
  - apply add_1_below_max.
Qed.

(** ** [MakeUpgradeRange] *)

Lemma upgradeLoop_continue (fuel : nat) (to v : Version) (versions : list Version) :
  CompareVersions v to <> VersionOrderAfter ->
  Z.of_nat (length versions) < GoInt.maxInt ->
  upgradeLoop (S fuel) to v versions = upgradeLoop fuel to (bump v) (versions ++ [v]).
Proof. intros H Hlen. cbn [upgradeLoop]. by rewrite !decide_True. Qed.

(** [append] to a slice of the largest length there is: the call does not
    return. *)
Lemma upgradeLoop_full (fuel : nat) (to v : Version) (versions : list Version) :
  CompareVersions v to <> VersionOrderAfter ->
  GoInt.maxInt <= Z.of_nat (length versions) ->
  upgradeLoop fuel to v versions = None.
Proof.
  intros H Hlen. destruct fuel as [|fuel]; [done|]. cbn [upgradeLoop].
  rewrite decide_True by done. rewrite decide_False by lia. done.
Qed.

Lemma upgradeLoop_exit (fuel : nat) (to v : Version) (versions : list Version) :
  CompareVersions v to = VersionOrderAfter ->
  upgradeLoop (S fuel) to v versions = Some versions.
Proof. intros H. cbn [upgradeLoop]. rewrite decide_False; [done | by intros []]. Qed.

(** More fuel never changes a result already reached. *)
Lemma upgradeLoop_mono (fuel fuel' : nat) (to v : Version) (versions l : list Version) :
  upgradeLoop fuel to v versions = Some l ->
  (fuel <= fuel')%nat ->
  upgradeLoop fuel' to v versions = Some l.
Proof.
  revert fuel' v versions.
  induction fuel as [|fuel IH]; intros fuel' v versions Hrun Hle; [done|].
  destruct fuel' as [|fuel']; [lia|].
  cbn [upgradeLoop] in *. case_decide; [|done]. case_decide; [|done].
  apply IH; [done | lia].
Qed.

Lemma MakeUpgradeRange_mono (fuel fuel' : nat) (from to : Version) r :
  MakeUpgradeRange fuel from to = Some r ->
  (fuel <= fuel')%nat ->
  MakeUpgradeRange fuel' from to = Some r.
Proof.
  unfold MakeUpgradeRange. case_decide; [done|].
  destruct (upgradeLoop fuel to from []) as [l|] eqn:Hrun; [|done].
  intros [= <-] Hle. by rewrite (upgradeLoop_mono _ _ _ _ _ _ Hrun Hle).
Qed.

(** Whatever the fuel, a call either has not returned yet or returns the one
    result [r] some amount of fuel reaches. *)
Lemma MakeUpgradeRange_deterministic (fuel0 fuel : nat) (from to : Version) r :
  MakeUpgradeRange fuel0 from to = Some r ->
  MakeUpgradeRange fuel from to = None \/ MakeUpgradeRange fuel from to = Some r.
Proof.
  intros H0.
  destruct (MakeUpgradeRange fuel from to) as [r'|] eqn:Hrun; [right | by left].
  destruct (Nat.le_ge_cases fuel fuel0) as [Hle|Hle].
  - pose proof (MakeUpgradeRange_mono _ _ _ _ _ Hrun Hle). congruence.
  - pose proof (MakeUpgradeRange_mono _ _ _ _ _ H0 Hle). congruence.
Qed.

(** C3. [MakeUpgradeRange({3,46}, {4,1})] returns the three versions
    [{3,46}, {3,47}, {4,0}]: after [{4,0}] the next version is [bump({4,0}) =
    {5,0}], which ends the loop, so [{4,1}] is not part of the result. *)
Theorem MakeUpgradeRange_3_46_to_4_1 :
  MakeUpgradeRange 4 (NewVersion 3 46) (NewVersion 4 1)
  = Some (Ok [NewVersion 3 46; NewVersion 3 47; NewVersion 4 0])
  /\ bump (NewVersion 4 0) = NewVersion 5 0
  /\ (forall fuel,
        MakeUpgradeRange fuel (NewVersion 3 46) (NewVersion 4 1)
        <> Some (Ok [NewVersion 3 46; NewVersion 3 47; NewVersion 4 0; NewVersion 4 1])).
Proof.
  assert (MakeUpgradeRange 4 (NewVersion 3 46) (NewVersion 4 1)
          = Some (Ok [NewVersion 3 46; NewVersion 3 47; NewVersion 4 0])) as Hrun
    by (vm_compute; reflexivity).
  split; [done | split].
  - by rewrite bump_unregistered_major.
  - intros fuel.
    destruct (MakeUpgradeRange_deterministic _ fuel _ _ _ Hrun) as [-> | ->];
      discriminate.
Qed.

(** C1. From [{4,0}] to [{4,2}] the range returned is [{4,0}] alone: it does
    not end at [to], and [{4,1}] and [{4,2}] are skipped, because [bump]
    takes [{4,0}] to [{5,0}]. *)
Theorem MakeUpgradeRange_4_0_to_4_2 :
  CompareVersions (NewVersion 4 0) (NewVersion 4 2) = VersionOrderBefore
  /\ MakeUpgradeRange 2 (NewVersion 4 0) (NewVersion 4 2) = Some (Ok [NewVersion 4 0])
  /\ (forall fuel versions,
        MakeUpgradeRange fuel (NewVersion 4 0) (NewVersion 4 2) = Some (Ok versions) ->
        last versions = Some (NewVersion 4 0) /\ NewVersion 4 2 ∉ versions).
Proof.
  assert (MakeUpgradeRange 2 (NewVersion 4 0) (NewVersion 4 2)
          = Some (Ok [NewVersion 4 0])) as Hrun by (vm_compute; reflexivity).
  split; [by vm_compute | split; [done|]].
  intros fuel versions Hfuel.
  destruct (MakeUpgradeRange_deterministic _ fuel _ _ _ Hrun) as [H | H];
    rewrite H in Hfuel; [done|].
  injection Hfuel as <-. split; [done|].
  rewrite list_elem_of_singleton. discriminate.
Qed.

(** *** Errors of [MakeUpgradeRange], and ranges on which it does not return *)

Lemma MakeUpgradeRange_inverted (fuel : nat) (from to : Version) :
  CompareVersions from to = VersionOrderAfter ->
  MakeUpgradeRange fuel from to = Some (Err (invalidRange from to)).
Proof. intros H. unfold MakeUpgradeRange. by rewrite decide_True. Qed.

Lemma MakeUpgradeRange_ordered (fuel : nat) (from to : Version) :
  CompareVersions from to <> VersionOrderAfter ->
  MakeUpgradeRange fuel from to = Ok <$> upgradeLoop fuel to from [].
Proof. intros H. unfold MakeUpgradeRange. by rewrite decide_False. Qed.

Lemma MakeUpgradeRange_Err_inv (fuel : nat) (from to : Version) (e : string) :
  MakeUpgradeRange fuel from to = Some (Err e) ->
  CompareVersions from to = VersionOrderAfter /\ e = invalidRange from to.
Proof.
  unfold MakeUpgradeRange. case_decide.
  - by intros [= <-].
  - destruct (upgradeLoop fuel to from []); discriminate.
Qed.

Lemma bump_representable (v : Version) : representable v -> representable (bump v).
Proof.
  intros [HM Hm]. unfold bump, representable.
  case_decide; cbn [Major Minor NewVersion]; split;
    try apply wrap_inRange; try done; unfold_int; lia.
Qed.

(** With the largest version as target no version is after it, so the loop
    condition never fails. *)
Lemma upgradeLoop_maxInt_diverges (fuel : nat) (v : Version) (versions : list Version) :
  representable v ->
  upgradeLoop fuel (NewVersion GoInt.maxInt GoInt.maxInt) v versions = None.
Proof.
  revert v versions. induction fuel as [|fuel IH]; intros v versions Hv; [done|].
  cbn [upgradeLoop]. rewrite decide_True.
  - case_decide; [|done]. apply IH. by apply bump_representable.
  - apply CompareVersions_not_After. cbn [Major Minor NewVersion].
    destruct Hv as [HM Hm]. unfold_int. lia.
Qed.

(** While no bump of [v] is after [to], the loop goes on until the slice is
    as long as a slice can be: the call does not return. *)
Lemma upgradeLoop_never (fuel : nat) (to v : Version) (versions : list Version) :
  Z.of_nat (length versions) <= GoInt.maxInt ->
  (forall k : nat,
     Z.of_nat (length versions) + Z.of_nat k <= GoInt.maxInt ->
     CompareVersions (Nat.iter k bump v) to <> VersionOrderAfter) ->
  upgradeLoop fuel to v versions = None.
Proof.
  revert v versions.
  induction fuel as [|fuel IH]; intros v versions Hfits Hnever; [done|].
  cbn [upgradeLoop]. rewrite decide_True by (apply (Hnever 0%nat); lia).
  case_decide as Hlen; [|done].
  apply IH; rewrite length_app; cbn [length]; [lia|].
  intros k Hk. rewrite <- Nat.iter_succ_r. apply Hnever. lia.
Qed.

Lemma wrap_add_1 (z : Z) : GoInt.add (GoInt.wrap z) 1 = GoInt.wrap (z + 1).
Proof. unfold_int. Z.div_mod_to_equations. lia. Qed.

(** From [{3,48}] the minor has to run through all the [int]s, wrapping
    around, before it meets 47. *)
Lemma iter_bump_3_48 (k : nat) :
  Z.of_nat k < GoInt.modulus - 1 ->
  Nat.iter k bump (NewVersion 3 48) = NewVersion 3 (GoInt.wrap (48 + Z.of_nat k)).
Proof.
  induction k as [|k IH]; intros Hk; [done|].
  rewrite Nat.iter_succ, IH by lia. rewrite bump_minor.
  - cbn [Major Minor NewVersion]. rewrite wrap_add_1. do 2 f_equal. lia.
  - rewrite lastInSeries_index. cbn [Major Minor NewVersion].
    rewrite decide_True by done. unfold_int. Z.div_mod_to_equations. lia.
Qed.

(** From [{3,48}] to [{4,0}] the call does not return, whatever the fuel:
    the range would hold more versions than a slice can. *)
Lemma MakeUpgradeRange_3_48_to_4_0_never (fuel : nat) :
  MakeUpgradeRange fuel (NewVersion 3 48) (NewVersion 4 0) = None.
Proof.
  unfold MakeUpgradeRange. rewrite decide_False by (by vm_compute).
  rewrite upgradeLoop_never; [done | by unfold_int |]. intros k Hk. cbn [length] in Hk.
  rewrite iter_bump_3_48 by (unfold_int; lia).
  apply CompareVersions_not_After. cbn [Major Minor NewVersion]. lia.
Qed.

(** *** Where the range is the chain of bumps *)

Lemma bumpChain_length (v : Version) (n : nat) : length (bumpChain v n) = S n.
Proof. revert v. induction n as [|n IH]; intros v; cbn; [done | by rewrite IH]. Qed.

Lemma bumpChain_lookup (v : Version) (n k : nat) :
  (k <= n)%nat -> bumpChain v n !! k = Some (Nat.iter k bump v).
Proof.
  revert v k. induction n as [|n IH]; intros v [|k] Hk; try done; try lia.
  cbn [bumpChain]. rewrite lookup_cons. rewrite IH by lia.
  by rewrite Nat.iter_succ_r.
Qed.

Lemma bumpChain_head (v : Version) (n : nat) : head (bumpChain v n) = Some v.
Proof. by destruct n. Qed.

Lemma bumpChain_last (v : Version) (n : nat) :
  last (bumpChain v n) = Some (Nat.iter n bump v).
Proof.
  rewrite last_lookup, bumpChain_length. cbn [Nat.pred].
  by apply bumpChain_lookup.
Qed.

(** While the chain stays at or below [to] and its next bump is after [to],
    the loop appends exactly the chain. *)
Lemma upgradeLoop_bumpChain (n : nat) (to v : Version) (versions : list Version) :
  Z.of_nat (length versions) + Z.of_nat n < GoInt.maxInt ->
  Forall (fun x => CompareVersions x to <> VersionOrderAfter) (bumpChain v n) ->
  CompareVersions (Nat.iter (S n) bump v) to = VersionOrderAfter ->
  upgradeLoop (S (S n)) to v versions = Some (versions ++ bumpChain v n).
Proof.
  revert v versions. induction n as [|n IH]; intros v versions Hlen Hchain Hexit.
  - apply Forall_cons in Hchain as [Hv _].
    rewrite upgradeLoop_continue by (done || lia). by apply upgradeLoop_exit.
  - cbn [bumpChain] in *. apply Forall_cons in Hchain as [Hv Hchain].
    rewrite upgradeLoop_continue by (done || lia).
    rewrite IH; [by rewrite <- app_assoc | | done |].
    + rewrite length_app. cbn [length]. lia.
    + by rewrite <- Nat.iter_succ_r.
Qed.

(** A chain of fewer than [2^20] bumps is far from the longest slice. *)
Lemma short_chain (n : nat) :
  Z.of_nat n < 2 ^ 20 -> Z.of_nat (length (@nil Version)) + Z.of_nat n < GoInt.maxInt.
Proof. change (2 ^ 20) with 1048576. cbn [length]. unfold_int. lia. Qed.

(** X1. When [to] is the [n]-th bump of [from] for an [n] below [2^20], no
    version on the way is after [to], and one more bump passes [to],
    [MakeUpgradeRange] returns exactly [from], [bump from], ..., [to]: it
    starts at [from], ends at [to], and each element is the bump of the one
    before. *)
Theorem MakeUpgradeRange_bumpChain (n : nat) (from to : Version) :
  Z.of_nat n < 2 ^ 20 ->
  Nat.iter n bump from = to ->
  Forall (fun v => CompareVersions v to <> VersionOrderAfter) (bumpChain from n) ->
  CompareVersions (bump to) to = VersionOrderAfter ->
  MakeUpgradeRange (n + 2) from to = Some (Ok (bumpChain from n))
  /\ head (bumpChain from n) = Some from
  /\ last (bumpChain from n) = Some to
  /\ (forall k v, bumpChain from n !! k = Some v -> (k < n)%nat ->
        bumpChain from n !! S k = Some (bump v)).
Proof.
  intros Hn Hto Hchain Hexit.
  assert (CompareVersions from to <> VersionOrderAfter) as Hfrom.
  { destruct n; by apply Forall_cons in Hchain as [? _]. }
  split; [|split; [|split]].
  - rewrite MakeUpgradeRange_ordered by done.
    replace (n + 2)%nat with (S (S n)) by lia.
    rewrite upgradeLoop_bumpChain; [done | by apply short_chain | done |].
    cbn [Nat.iter nat_rect]. change (nat_rect _ _ _ n) with (Nat.iter n bump from).
    by rewrite Hto.
  - apply bumpChain_head.
  - by rewrite bumpChain_last, Hto.
  - intros k v Hk Hlt. rewrite bumpChain_lookup in Hk by lia.
    injection Hk as <-. by rewrite bumpChain_lookup by lia.
Qed.

(** The chain from [{3,45}] across the boundary to [{4,0}]. *)
Lemma MakeUpgradeRange_bumpChain_witness :
  MakeUpgradeRange (3 + 2) (NewVersion 3 45) (NewVersion 4 0)
  = Some (Ok (bumpChain (NewVersion 3 45) 3))
  /\ head (bumpChain (NewVersion 3 45) 3) = Some (NewVersion 3 45)
  /\ last (bumpChain (NewVersion 3 45) 3) = Some (NewVersion 4 0)
  /\ (forall k v, bumpChain (NewVersion 3 45) 3 !! k = Some v -> (k < 3)%nat ->
        bumpChain (NewVersion 3 45) 3 !! S k = Some (bump v)).
Proof.
  apply (MakeUpgradeRange_bumpChain 3 (NewVersion 3 45) (NewVersion 4 0)).
  - reflexivity.
  - vm_compute. reflexivity.
  - repeat constructor; vm_compute; discriminate.
  - vm_compute. reflexivity.
Defined.

Example bumpChain_3_45_to_4_0 :
  bumpChain (NewVersion 3 45) 3
  = [NewVersion 3 45; NewVersion 3 46; NewVersion 3 47; NewVersion 4 0].
Proof. vm_compute. reflexivity. Qed.

(** Inside one major, with the minor at which [bump] leaves the major (47
    for major 3, 0 for every other major) outside [[a, b]], the chain from
    [{major, a}] is [{major, a}], [{major, a+1}], ... *)
Lemma bumpChain_minors (major : Z) (n : nat) (a : Z) :
  GoInt.minInt <= a ->
  a + Z.of_nat n <= GoInt.maxInt ->
  (GoInt.index lastInSeries major < a
   \/ a + Z.of_nat n <= GoInt.index lastInSeries major) ->
  bumpChain (NewVersion major a) n = NewVersion major <$> seqZ a (Z.of_nat n + 1).
Proof.
  revert a. induction n as [|n IH]; intros a Hlo Hhi Hidx.
  - reflexivity.
  - cbn [bumpChain]. rewrite seqZ_cons by lia. rewrite fmap_cons. f_equal.
    rewrite bump_minor by (cbn [Major Minor NewVersion]; lia).
    cbn [Major Minor NewVersion].
    rewrite add_1_below_max by lia.
    rewrite IH by lia. do 2 f_equal; lia.
Qed.

(** X2. Inside one major, for minors [a <= b] fewer than [2^20] apart, with
    the minor at which [bump] leaves the major (47 for major 3, 0 for every
    other major) outside [[a, b]], [MakeUpgradeRange({major,a}, {major,b})]
    returns [{major,a}], [{major,a+1}], ..., [{major,b}]. *)
Theorem MakeUpgradeRange_within_major (major a b : Z) :
  GoInt.minInt <= a -> a <= b -> b < GoInt.maxInt -> b - a < 2 ^ 20 ->
  (GoInt.index lastInSeries major < a \/ b < GoInt.index lastInSeries major) ->
  MakeUpgradeRange (Z.to_nat (b - a) + 2) (NewVersion major a) (NewVersion major b)
  = Some (Ok (NewVersion major <$> seqZ a (b - a + 1))).
Proof.
  intros Hlo Hab Hhi Hshort Hidx.
  rewrite MakeUpgradeRange_ordered
    by (apply CompareVersions_not_After; cbn [Major Minor NewVersion]; lia).
  replace (Z.to_nat (b - a) + 2)%nat with (S (S (Z.to_nat (b - a)))) by lia.
  assert (bumpChain (NewVersion major a) (S (Z.to_nat (b - a)))
          = NewVersion major <$> seqZ a (b - a + 2)) as Hnext.
  { rewrite bumpChain_minors by lia. do 2 f_equal. lia. }
  assert (bumpChain (NewVersion major a) (Z.to_nat (b - a))
          = NewVersion major <$> seqZ a (b - a + 1)) as Hchain.
  { rewrite bumpChain_minors by lia. do 2 f_equal. lia. }
  rewrite upgradeLoop_bumpChain.
  - by rewrite Hchain.
  - apply short_chain. by rewrite Z2Nat.id by lia.
  - rewrite Hchain. apply Forall_fmap, Forall_seqZ.
    intros j Hj. apply CompareVersions_not_After. cbn [Major Minor NewVersion]. lia.
  - pose proof (bumpChain_lookup (NewVersion major a) (S (Z.to_nat (b - a)))
                  (S (Z.to_nat (b - a))) (le_n _)) as Hnth.
    rewrite Hnext, list_lookup_fmap, lookup_seqZ_lt in Hnth by lia.
    assert (Nat.iter (S (Z.to_nat (b - a))) bump (NewVersion major a)
            = NewVersion major (a + Z.of_nat (S (Z.to_nat (b - a))))) as ->
      by (cbn [fmap option_fmap option_map] in Hnth; congruence).
    apply CompareVersions_After. cbn [Major Minor NewVersion]. lia.
Qed.

(** The range from [{4,1}] to [{4,5}]. *)
Lemma MakeUpgradeRange_within_major_witness :
  MakeUpgradeRange (Z.to_nat (5 - 1) + 2) (NewVersion 4 1) (NewVersion 4 5)
  = Some (Ok (NewVersion 4 <$> seqZ 1 (5 - 1 + 1))).
Proof.
  apply (MakeUpgradeRange_within_major 4 1 5).
  - unfold GoInt.minInt. lia.
  - lia.
  - unfold GoInt.maxInt. lia.
  - reflexivity.
  - left. vm_compute. reflexivity.
Defined.




(** ** The interrupt schedule *)

Lemma crossedBy_spec (from to point : Version) :
  crossedBy from to point = true
  <-> (Major from < Major point \/ (Major from = Major point /\ Minor from < Minor point))
      /\ (Major point < Major to \/ (Major point = Major to /\ Minor point <= Minor to)).
Proof.
  unfold crossedBy.
  rewrite andb_true_iff, !bool_decide_eq_true.
  by rewrite CompareVersions_Before, CompareVersions_not_After.
Qed.

(** [pointIntersectsInterval] is the closed interval; the crossing test
    leaves out its lower end. *)
Lemma pointIntersectsInterval_spec (lower upper point : Version) :
  pointIntersectsInterval lower upper point = true
  <-> CompareVersions lower point <> VersionOrderAfter
      /\ CompareVersions point upper <> VersionOrderAfter.
Proof.
  unfold pointIntersectsInterval.
  rewrite andb_true_iff, !bool_decide_eq_true.
  rewrite !CompareVersions_not_After.
  assert (forall a b, CompareVersions a b <> VersionOrderBefore
                      <-> Major b < Major a \/ (Major a = Major b /\ Minor b <= Minor a)) as Hnb
    by (intros a b; rewrite CompareVersions_Before; lia).
  rewrite !Hnb. lia.
Qed.

(** X3. [pointIntersectsInterval lower upper point] holds exactly when
    [point] lies in the closed interval [[lower, upper]] of the
    lexicographic order on versions. *)
Theorem pointIntersectsInterval_closed (lower upper point : Version) :
  pointIntersectsInterval lower upper point = true
  <-> (Major lower < Major point
       \/ (Major lower = Major point /\ Minor lower <= Minor point))
      /\ (Major point < Major upper
          \/ (Major point = Major upper /\ Minor point <= Minor upper)).
Proof.
  by rewrite pointIntersectsInterval_spec, !CompareVersions_not_After.
Qed.

Lemma crossedBy_pointIntersectsInterval (from to point : Version) :
  crossedBy from to point = true
  <-> pointIntersectsInterval from to point = true /\ point <> from.
Proof.
  rewrite crossedBy_spec, pointIntersectsInterval_spec, !CompareVersions_not_After.
  split.
  - intros [H1 H2]. split; [lia|]. intros ->. lia.
  - intros [[H1 H2] Hne]. split; [|lia].
    destruct (decide (Minor from = Minor point)) as [Hm|Hm]; [|lia].
    destruct (decide (Major from = Major point)) as [HM|HM]; [|lia].
    destruct from, point; cbn in *; congruence.
Qed.

Section schedule_facts.

Import MigrationInterrupt.

Implicit Types (i j : MigrationInterrupt.t) (s : list MigrationInterrupt.t).
Implicit Types (v w : oobmigration.Version) (m : OutOfBandMigration).
Implicit Types (ms : list OutOfBandMigration).

Lemma interruptBefore_trans i j k :
  interruptBefore i j -> interruptBefore j k -> interruptBefore i k.
Proof. unfold interruptBefore. apply CompareVersions_Before_trans. Qed.

(** Recording an interrupt adds no version but the recorded one. *)
Lemma recordInterrupt_Forall (Q : oobmigration.Version -> Prop) v id s :
  Q v ->
  Forall (fun j => Q (Version j)) s ->
  Forall (fun j => Q (Version j)) (recordInterrupt v id s).
Proof.
  intros Hv. induction 1 as [|i rest Hi Hrest IH]; cbn [recordInterrupt].
  - by repeat constructor.
  - destruct (CompareVersions v (Version i)); repeat constructor; done.
Qed.

Lemma recordInterrupt_sorted v id s :
  StronglySorted interruptBefore s ->
  StronglySorted interruptBefore (recordInterrupt v id s).
Proof.
  induction 1 as [|i rest Hsorted IH Hi]; cbn [recordInterrupt].
  - repeat constructor.
  - destruct (CompareVersions v (Version i)) eqn:Hcmp.
    + constructor; [by constructor|].
      constructor; [done|].
      eapply Forall_impl; [exact Hi|].
      intros k Hk. by eapply interruptBefore_trans.
    + by constructor.
    + constructor; [done|].
      apply (recordInterrupt_Forall
               (fun w => CompareVersions (Version i) w = VersionOrderBefore));
        [|done].
      by apply CompareVersions_flip.
Qed.

Lemma CompareVersions_Before_ne (a b : oobmigration.Version) :
  CompareVersions a b = VersionOrderBefore -> a <> b.
Proof.
  intros H ->. rewrite (proj2 (CompareVersions_Equal b b) eq_refl) in H.
  discriminate.
Qed.

Lemma entryAt_before v s :
  Forall (fun j => CompareVersions v (Version j) = VersionOrderBefore) s ->
  entryAt v s = None.
Proof.
  induction 1 as [|i rest Hi Hrest IH]; [done|].
  cbn [entryAt]. rewrite decide_False; [done|].
  intros Heq. by apply CompareVersions_Before_ne in Hi.
Qed.

(** Recording [id] at [v] appends it to the entry at [v], creating the
    entry if there is none, and leaves every other entry as it was. *)
Lemma entryAt_recordInterrupt v id s w :
  StronglySorted interruptBefore s ->
  entryAt w (recordInterrupt v id s)
  = if decide (w = v) then Some (default [] (entryAt v s) ++ [id]) else entryAt w s.
Proof.
  induction 1 as [|i rest Hsorted IH Hi]; cbn [recordInterrupt].
  - cbn. repeat case_decide; first [done | congruence].
  - destruct (CompareVersions v (Version i)) eqn:Hcmp.
    + assert (entryAt v (i :: rest) = None) as Hnone.
      { apply entryAt_before. constructor; [done|].
        eapply Forall_impl; [exact Hi|].
        intros k Hk. by eapply CompareVersions_Before_trans. }
      rewrite Hnone. cbn [entryAt Version MigrationIDs default].
      repeat case_decide; first [done | congruence].
    + apply CompareVersions_Equal in Hcmp. subst v.
      cbn [entryAt Version MigrationIDs].
      rewrite (decide_True (P := Version i = Version i)) by done.
      cbn [default]. repeat case_decide; first [done | congruence].
    + assert (Version i <> v) as Hne.
      { intros <-. rewrite (proj2 (CompareVersions_Equal _ _) eq_refl) in Hcmp.
        discriminate. }
      cbn [entryAt]. rewrite IH.
      rewrite (decide_False (P := Version i = v)) by done.
      repeat case_decide; first [done | congruence].
Qed.

(** In an ordered schedule an entry is determined by its version. *)
Lemma entryAt_elem_of i s :
  StronglySorted interruptBefore s ->
  i ∈ s <-> entryAt (Version i) s = Some (MigrationIDs i).
Proof.
  induction 1 as [|j rest Hsorted IH Hj]; cbn [entryAt].
  - split; [by intros ?%not_elem_of_nil | done].
  - rewrite elem_of_cons. case_decide as Heq.
    + split.
      * intros [-> | Hin]; [done|].
        rewrite Forall_forall in Hj. apply Hj in Hin.
        by apply CompareVersions_Before_ne in Hin.
      * intros [= Hids]. left. destruct i, j; cbn in *; congruence.
    + rewrite <- IH. split; [|by right].
      intros [-> | Hin]; done.
Qed.

Lemma idsDeprecatedAt_snoc w ms m :
  idsDeprecatedAt w (ms ++ [m])
  = idsDeprecatedAt w ms ++ (if decide (Deprecated m = w) then [ID m] else []).
Proof.
  unfold idsDeprecatedAt. rewrite filter_app, fmap_app. f_equal.
  rewrite filter_cons, filter_nil. by case_decide.
Qed.

Lemma scheduleInterrupts_snoc from to ms m :
  scheduleInterrupts from to (ms ++ [m])
  = if crossedBy from to (Deprecated m)
    then recordInterrupt (Deprecated m) (ID m) (scheduleInterrupts from to ms)
    else scheduleInterrupts from to ms.
Proof. unfold scheduleInterrupts. by rewrite foldl_app. Qed.

(** The schedule is ordered, and its entry at any version is the list of
    the migrations deprecated there, provided the version is crossed and
    there is such a migration. *)
Lemma scheduleInterrupts_entryAt from to ms :
  StronglySorted interruptBefore (scheduleInterrupts from to ms)
  /\ forall w,
       entryAt w (scheduleInterrupts from to ms)
       = if crossedBy from to w && bool_decide (idsDeprecatedAt w ms <> [])
         then Some (idsDeprecatedAt w ms) else None.
Proof.
  induction ms as [|m ms [IHsorted IH]] using rev_ind.
  - split; [constructor|]. intros w. cbn. by rewrite andb_false_r.
  - rewrite scheduleInterrupts_snoc.
    destruct (crossedBy from to (Deprecated m)) eqn:Hcross.
    + split; [by apply recordInterrupt_sorted|].
      intros w. rewrite entryAt_recordInterrupt by done.
      rewrite idsDeprecatedAt_snoc. case_decide as Hw.
      * subst w. rewrite decide_True by done. rewrite IH, Hcross.
        rewrite (bool_decide_eq_true_2 (_ ++ [ID m] <> []))
          by (by destruct (idsDeprecatedAt (Deprecated m) ms)).
        cbn [andb]. case_bool_decide as Hids; cbn; [done|].
        by rewrite Hids.
      * rewrite decide_False by done. rewrite app_nil_r. apply IH.
    + split; [done|].
      intros w. rewrite IH, idsDeprecatedAt_snoc.
      case_decide as Hw; [|by rewrite app_nil_r].
      subst w. by rewrite Hcross.
Qed.

End schedule_facts.

(** C2. In the interrupt schedule for [(from, to]] the versions ascend
    strictly, so no version has two entries; an entry stands at a version
    exactly when that version lies in [(from, to]] and some registered
    migration is deprecated there; each entry lists the IDs of all the
    migrations deprecated at its version, and only those; and a migration
    deprecated outside [(from, to]] has no entry at its version. *)
Theorem scheduleInterrupts_exact (from to : Version)
    (registeredMigrations : list OutOfBandMigration) :
  let interrupts := scheduleInterrupts from to registeredMigrations in
  StronglySorted interruptBefore interrupts
  /\ (forall i j, i ∈ interrupts -> j ∈ interrupts ->
        MigrationInterrupt.Version i = MigrationInterrupt.Version j -> i = j)
  /\ (forall version,
        (exists i, i ∈ interrupts /\ MigrationInterrupt.Version i = version)
        <-> crossedBy from to version = true
            /\ exists m, m ∈ registeredMigrations /\ Deprecated m = version)
  /\ (forall i, i ∈ interrupts ->
        MigrationInterrupt.MigrationIDs i
        = idsDeprecatedAt (MigrationInterrupt.Version i) registeredMigrations)
  /\ (forall i id, i ∈ interrupts -> id ∈ MigrationInterrupt.MigrationIDs i ->
        exists m, m ∈ registeredMigrations /\ ID m = id
                  /\ Deprecated m = MigrationInterrupt.Version i
                  /\ crossedBy from to (Deprecated m) = true)
  /\ (forall m, m ∈ registeredMigrations ->
        crossedBy from to (Deprecated m) = true ->
        exists i, i ∈ interrupts
                  /\ MigrationInterrupt.Version i = Deprecated m
                  /\ ID m ∈ MigrationInterrupt.MigrationIDs i)
  /\ (forall m, m ∈ registeredMigrations ->
        crossedBy from to (Deprecated m) = false ->
        forall i, i ∈ interrupts -> MigrationInterrupt.Version i <> Deprecated m)
  /\ (forall point,
        crossedBy from to point = true
        <-> CompareVersions from point = VersionOrderBefore
            /\ CompareVersions point to <> VersionOrderAfter).
Proof.
  intros interrupts.
  destruct (scheduleInterrupts_entryAt from to registeredMigrations)
    as [Hsorted Hentry]. fold interrupts in Hsorted, Hentry.
  assert (forall i, i ∈ interrupts ->
            crossedBy from to (MigrationInterrupt.Version i) = true
            /\ MigrationInterrupt.MigrationIDs i
               = idsDeprecatedAt (MigrationInterrupt.Version i) registeredMigrations
            /\ MigrationInterrupt.MigrationIDs i <> []) as Hin.
  { intros i Hi. apply (entryAt_elem_of i _ Hsorted) in Hi.
    rewrite Hentry in Hi.
    destruct (crossedBy from to (MigrationInterrupt.Version i)); [|done].
    cbn [andb] in Hi. case_bool_decide as Hids; [|done].
    injection Hi as Hi. by rewrite <- Hi. }
  assert (forall m, m ∈ registeredMigrations ->
            ID m ∈ idsDeprecatedAt (Deprecated m) registeredMigrations) as Hid.
  { intros m Hm. unfold idsDeprecatedAt. apply list_elem_of_fmap.
    exists m. split; [done|]. by apply list_elem_of_filter. }
  split; [done|]. split; [|split; [|split; [|split; [|split; [|split]]]]].
  - intros i j Hi Hj Heq.
    apply (entryAt_elem_of i _ Hsorted) in Hi.
    apply (entryAt_elem_of j _ Hsorted) in Hj.
    rewrite Heq in Hi. rewrite Hi in Hj. injection Hj as Hids.
    destruct i, j; cbn in *; congruence.
  - intros version. split.
    + intros (i & Hi & <-). destruct (Hin i Hi) as (Hcross & Hids & Hne).
      split; [done|]. rewrite Hids in Hne. unfold idsDeprecatedAt in Hne.
      destruct (filter _ registeredMigrations) as [|m rest] eqn:Hfilter; [done|].
      assert (m ∈ filter (fun m => Deprecated m = MigrationInterrupt.Version i)
                  registeredMigrations) as Hm by (rewrite Hfilter; left).
      apply list_elem_of_filter in Hm as [Hdep Hm]. by exists m.
    + intros (Hcross & m & Hm & <-).
      exists (MigrationInterrupt.Build_t (Deprecated m)
                (idsDeprecatedAt (Deprecated m) registeredMigrations)).
      split; [|done]. apply (entryAt_elem_of _ _ Hsorted).
      cbn [MigrationInterrupt.Version MigrationInterrupt.MigrationIDs].
      rewrite Hentry, Hcross. cbn [andb].
      rewrite bool_decide_eq_true_2; [done|].
      intros Hnil. specialize (Hid m Hm). rewrite Hnil in Hid.
      by apply not_elem_of_nil in Hid.
  - intros i Hi. by destruct (Hin i Hi) as (_ & ? & _).
  - intros i id Hi Hid'. destruct (Hin i Hi) as (Hcross & Hids & _).
    rewrite Hids in Hid'. unfold idsDeprecatedAt in Hid'.
    apply list_elem_of_fmap in Hid' as (m & -> & Hm).
    apply list_elem_of_filter in Hm as [Hdep Hm].
    exists m. by rewrite Hdep.
  - intros m Hm Hcross.
    exists (MigrationInterrupt.Build_t (Deprecated m)
              (idsDeprecatedAt (Deprecated m) registeredMigrations)).
    cbn [MigrationInterrupt.Version MigrationInterrupt.MigrationIDs].
    split; [|split; [done | by apply Hid]].
    apply (entryAt_elem_of _ _ Hsorted).
    cbn [MigrationInterrupt.Version MigrationInterrupt.MigrationIDs].
    rewrite Hentry, Hcross. cbn [andb].
    rewrite bool_decide_eq_true_2; [done|].
    intros Hnil. specialize (Hid m Hm). rewrite Hnil in Hid.
    by apply not_elem_of_nil in Hid.
  - intros m Hm Hcross i Hi Heq. destruct (Hin i Hi) as (Hcross' & _).
    congruence.
  - intros point. unfold crossedBy.
    by rewrite andb_true_iff, !bool_decide_eq_true.
Qed.

(** The example of the spec: a migration valid on [[1.0, 2.0)] interrupts an
    upgrade from 1.0 to 3.0 at 2.0, and does not interrupt one from 2.0. *)
Example scheduleInterrupts_deprecated_at_2_0 :
  let m := {| ID := 7; Introduced := NewVersion 1 0; Deprecated := NewVersion 2 0 |} in
  scheduleInterrupts (NewVersion 1 0) (NewVersion 3 0) [m]
  = [ MigrationInterrupt.Build_t (NewVersion 2 0) [7] ]
  /\ scheduleInterrupts (NewVersion 2 0) (NewVersion 3 0) [m] = [].
Proof. split; reflexivity. Qed.

(** ** The upgrade planner *)

Lemma foldl_snoc_fmap {A B : Type} (f : A -> B) (l : list A) (acc : list B) :
  foldl (fun acc x => acc ++ [f x]) acc l = acc ++ (f <$> l).
Proof.
  revert acc. induction l as [|x l IH]; intros acc; cbn.
  - by rewrite app_nil_r.
  - rewrite IH. by rewrite <- app_assoc.
Qed.

Lemma gitTags_fmap (versions : list Version) :
  cliutil.gitTags versions = GitTag <$> versions.
Proof. unfold cliutil.gitTags. by rewrite foldl_snoc_fmap. Qed.

Lemma last_default {A : Type} (l : list A) (d : A) :
  l <> [] -> last l = Some (List.last l d).
Proof.
  induction l as [|x [|y l] IH]; intros Hne; [done | done |].
  change (last (y :: l) = Some (List.last (y :: l) d)). by apply IH.
Qed.

Section planner_facts.

Import cliutil.

Context {Definitions E : Type}.
Variable SchemaNames : list string.
Variable StitchDefinitions :
  string -> string -> list string -> result E (Definitions * gmap string (list Z)).
Variable ScheduleMigrationInterrupts :
  Version -> Version -> result E (list MigrationInterrupt.t).

Implicit Types (log : list Call) (versionRange : list Version).
Implicit Types (metadataBySchemaName : gmap string (@migrationGraphMetadata Definitions)).

(** The calls the metadata loop makes over [schemaNames]. *)
Local Abbreviation stitchCalls schemaNames versionRange :=
  ((fun schemaName =>
      CallStitchDefinitions schemaName repositoryRoot (gitTags versionRange))
     <$> schemaNames).

(** A successful run of the metadata loop stitched every schema name, in
    order, and holds for each of them what [StitchDefinitions] returned. *)
Lemma metadataLoop_Ok schemaNames versionRange metadataBySchemaName log log' result :
  metadataLoop StitchDefinitions schemaNames versionRange metadataBySchemaName log
  = (log', Ok result) ->
  log' = log ++ stitchCalls schemaNames versionRange
  /\ (forall schemaName, schemaName ∈ schemaNames ->
        exists definitions leafIDsByRev,
          StitchDefinitions schemaName repositoryRoot (gitTags versionRange)
          = Ok (definitions, leafIDsByRev)
          /\ result !! schemaName
             = Some (Build_migrationGraphMetadata definitions leafIDsByRev))
  /\ (forall schemaName, schemaName ∉ schemaNames ->
        result !! schemaName = metadataBySchemaName !! schemaName).
Proof.
  revert metadataBySchemaName log.
  induction schemaNames as [|name rest IH]; intros metadataBySchemaName log Hrun.
  - cbn in Hrun. injection Hrun as <- <-.
    split; [by rewrite app_nil_r|]. split; [|done].
    by intros ? ?%not_elem_of_nil.
  - cbn [metadataLoop] in Hrun. unfold bind, stitch in Hrun.
    destruct (StitchDefinitions name repositoryRoot (gitTags versionRange))
      as [[definitions leafIDsByRev]|e] eqn:Hstitch; [|done].
    apply IH in Hrun as (Hlog & Hin & Hout).
    split; [by rewrite Hlog, <- app_assoc|]. split.
    + intros schemaName Hname.
      destruct (decide (schemaName ∈ rest)) as [Hrest|Hrest]; [by apply Hin|].
      apply elem_of_cons in Hname as [-> | ?]; [|done].
      exists definitions, leafIDsByRev. split; [done|].
      rewrite Hout by done. apply lookup_insert_eq.
    + intros schemaName Hname. apply not_elem_of_cons in Hname as [Hne Hrest].
      rewrite Hout by done. by apply lookup_insert_ne.
Qed.

(** The metadata loop stops at the first schema whose stitching fails. *)
Lemma metadataLoop_total schemaNames versionRange metadataBySchemaName log :
  (forall schemaName, schemaName ∈ schemaNames ->
     exists r, StitchDefinitions schemaName repositoryRoot (gitTags versionRange) = Ok r) ->
  exists result,
    metadataLoop StitchDefinitions schemaNames versionRange metadataBySchemaName log
    = (log ++ stitchCalls schemaNames versionRange, Ok result).
Proof.
  revert metadataBySchemaName log.
  induction schemaNames as [|name rest IH]; intros metadataBySchemaName log Hok.
  - exists metadataBySchemaName. cbn. by rewrite app_nil_r.
  - destruct (Hok name) as [[definitions leafIDsByRev] Hstitch]; [left|].
    cbn [metadataLoop]. unfold bind, stitch. rewrite Hstitch.
    edestruct IH as [result ->].
    + intros schemaName Hin. apply Hok. by right.
    + exists result. by rewrite fmap_cons, <- app_assoc.
Qed.

(** C10. On the empty range [planUpgrade] returns no steps and no error,
    whatever the collaborators would answer, and calls neither of them. *)
Theorem planUpgrade_empty_range log :
  planUpgrade SchemaNames StitchDefinitions ScheduleMigrationInterrupts [] log
  = (log, Ok []).
Proof. reflexivity. Qed.

(** C4. When [planUpgrade] returns steps for a non-empty range, they are
    one step per interrupt of the schedule, in order, followed by exactly one
    more step: its version is the last version of the range, its
    out-of-band migrations are none, and for each schema it holds the leaves
    [StitchDefinitions] resolved for the tag of that version. *)
Theorem planUpgrade_final_step versionRange log log' steps :
  versionRange <> [] ->
  planUpgrade SchemaNames StitchDefinitions ScheduleMigrationInterrupts versionRange log
  = (log', Ok steps) ->
  exists from to metadataBySchemaName interrupts final,
    head versionRange = Some from
    /\ last versionRange = Some to
    /\ ScheduleMigrationInterrupts from to = Ok interrupts
    /\ steps
       = ((fun interrupt =>
             makeUpgradeStep metadataBySchemaName
               (MigrationInterrupt.Version interrupt)
               (MigrationInterrupt.MigrationIDs interrupt)) <$> interrupts)
         ++ [final]
    /\ InstanceVersion final = to
    /\ OutOfBandMigrationIDs final = []
    /\ (forall schemaName, schemaName ∈ SchemaNames ->
          exists definitions leafIDsByRev,
            StitchDefinitions schemaName repositoryRoot (GitTag <$> versionRange)
            = Ok (definitions, leafIDsByRev)
            /\ LeafMigrationIDsBySchema final !! schemaName
               = Some (default [] (leafIDsByRev !! GitTag to)))
    /\ (forall schemaName, schemaName ∉ SchemaNames ->
          LeafMigrationIDsBySchema final !! schemaName = None)
    /\ length steps = S (length interrupts).
Proof.
  intros Hne Hrun. destruct versionRange as [|from rest]; [done|].
  cbn [planUpgrade] in Hrun. unfold bind at 1 in Hrun.
  set (versionRange := from :: rest) in *.
  destruct (metadataBySchemaNameForVersion _ _ versionRange log)
    as [log1 [metadataBySchemaName|e]] eqn:Hmeta; [|done].
  unfold bind, schedule, ret in Hrun.
  set (to := List.last versionRange from) in *.
  destruct (ScheduleMigrationInterrupts from to) as [interrupts|e] eqn:Hsched;
    [|done].
  injection Hrun as _ <-.
  apply metadataLoop_Ok in Hmeta as (_ & Hin & Hout).
  exists from, to, metadataBySchemaName, interrupts,
    (makeUpgradeStep metadataBySchemaName to []).
  split; [done|]. split; [by apply last_default|]. split; [done|].
  rewrite foldl_snoc_fmap, app_nil_l.
  split; [done|]. split; [done|]. split; [done|]. split; [|split].
  - intros schemaName Hname.
    destruct (Hin schemaName Hname) as (definitions & leafIDsByRev & Hstitch & Hlookup).
    exists definitions, leafIDsByRev. rewrite <- gitTags_fmap. split; [done|].
    cbn [makeUpgradeStep LeafMigrationIDsBySchema].
    by rewrite lookup_fmap, Hlookup.
  - intros schemaName Hname.
    cbn [makeUpgradeStep LeafMigrationIDsBySchema].
    by rewrite lookup_fmap, Hout.
  - rewrite length_app, length_fmap. cbn. lia.
Qed.

(** The planner returns steps whenever both collaborators answer. *)
Lemma planUpgrade_total versionRange log from to interrupts :
  head versionRange = Some from ->
  last versionRange = Some to ->
  (forall schemaName, schemaName ∈ SchemaNames ->
     exists r, StitchDefinitions schemaName repositoryRoot (gitTags versionRange) = Ok r) ->
  ScheduleMigrationInterrupts from to = Ok interrupts ->
  exists log' steps,
    planUpgrade SchemaNames StitchDefinitions ScheduleMigrationInterrupts versionRange log
    = (log', Ok steps).
Proof.
  intros Hhead Hlast Hstitch Hsched.
  destruct versionRange as [|from' rest]; [done|]. injection Hhead as ->.
  rewrite (last_default _ from) in Hlast by done.
  assert (List.last (from :: rest) from = to) as Hto by congruence.
  clear Hlast. subst to.
  cbn [planUpgrade]. unfold bind at 1. unfold metadataBySchemaNameForVersion.
  destruct (metadataLoop_total SchemaNames (from :: rest) ∅ log Hstitch)
    as [metadataBySchemaName ->].
  unfold bind, schedule, ret. rewrite Hsched. eauto.
Qed.

End planner_facts.

(** What the planner returns, and which calls it makes, on the sample
    instance. *)
Lemma sample_planUpgrade :
  cliutil.planUpgrade sample.SchemaNames sample.StitchDefinitions
    sample.ScheduleMigrationInterrupts sample.versionRange []
  = (sample.calls, Ok sample.steps).
Proof. vm_compute. reflexivity. Qed.

(** The plan of the sample instance. *)
Lemma planUpgrade_final_step_witness :
  exists from to (metadataBySchemaName : gmap string (@cliutil.migrationGraphMetadata unit))
         interrupts final,
    head sample.versionRange = Some from
    /\ last sample.versionRange = Some to
    /\ sample.ScheduleMigrationInterrupts from to = Ok interrupts
    /\ sample.steps
       = ((fun interrupt =>
             cliutil.makeUpgradeStep metadataBySchemaName
               (MigrationInterrupt.Version interrupt)
               (MigrationInterrupt.MigrationIDs interrupt)) <$> interrupts)
         ++ [final]
    /\ cliutil.InstanceVersion final = to
    /\ cliutil.OutOfBandMigrationIDs final = []
    /\ (forall schemaName, schemaName ∈ sample.SchemaNames ->
          exists definitions leafIDsByRev,
            sample.StitchDefinitions schemaName cliutil.repositoryRoot
              (GitTag <$> sample.versionRange)
            = Ok (definitions, leafIDsByRev)
            /\ cliutil.LeafMigrationIDsBySchema final !! schemaName
               = Some (default [] (leafIDsByRev !! GitTag to)))
    /\ (forall schemaName, schemaName ∉ sample.SchemaNames ->
          cliutil.LeafMigrationIDsBySchema final !! schemaName = None)
    /\ length sample.steps = S (length interrupts).
Proof.
  apply (planUpgrade_final_step sample.SchemaNames sample.StitchDefinitions
           sample.ScheduleMigrationInterrupts sample.versionRange [] sample.calls
           sample.steps).
  - discriminate.
  - vm_compute. reflexivity.
Defined.

(** ** The changeset-spec migrator *)

Section migrator_facts.

Import migrations.

Implicit Types (rows : list changesetSpecRow) (s : Store).

Lemma countMigrated_bounds rows : 0 <= countMigrated rows <= countAll rows.
Proof.
  unfold countMigrated, countAll.
  pose proof (length_filter (fun r => migrated r = true) rows). lia.
Qed.

Lemma countMigrated_cons r rows :
  countMigrated (r :: rows)
  = (if migrated r then 1 else 0) + countMigrated rows.
Proof.
  unfold countMigrated. rewrite filter_cons.
  destruct (migrated r); case_decide; try done; cbn [length]; lia.
Qed.

(** No row is migrated exactly when the count of migrated rows is zero. *)
Lemma countMigrated_zero rows :
  countMigrated rows = 0 <-> Forall (fun r => migrated r = false) rows.
Proof.
  induction rows as [|r rows IH]; [by split; [constructor|]|].
  rewrite countMigrated_cons, Forall_cons, <- IH.
  pose proof (countMigrated_bounds rows). destruct (migrated r); split; try lia; by intros [? ?].
Qed.

(** Every row is migrated exactly when the two counts agree. *)
Lemma countMigrated_all rows :
  countMigrated rows = countAll rows <-> Forall (fun r => migrated r = true) rows.
Proof.
  induction rows as [|r rows IH]; [by split; [constructor|]|].
  rewrite countMigrated_cons, Forall_cons, <- IH.
  pose proof (countMigrated_bounds rows). unfold countAll in *. cbn [length].
  destruct (migrated r); split; try lia; by intros [? ?].
Qed.

(** The quotient the query computes when the table has rows. *)
Lemma progressQuery_nonempty rows :
  countAll rows <> 0 ->
  changesetSpecMigratorProgressQuery rows
  = (inject_Z (countAll rows - countMigrated rows) / inject_Z (countAll rows))%Q.
Proof. intros H. unfold changesetSpecMigratorProgressQuery. by rewrite decide_False. Qed.

Lemma progressQuery_empty rows :
  countAll rows = 0 -> changesetSpecMigratorProgressQuery rows = 1%Q.
Proof. intros H. unfold changesetSpecMigratorProgressQuery. by rewrite decide_True. Qed.

Lemma Qdiv_counts_le (a b : Z) :
  0 < b -> 0 <= a <= b ->
  (0 <= inject_Z a / inject_Z b)%Q /\ (inject_Z a / inject_Z b <= 1)%Q.
Proof.
  intros Hb Ha. destruct b as [|b|b]; try lia.
  unfold Qle, Qdiv, Qmult, Qinv, inject_Z. cbn. lia.
Qed.

Lemma Qdiv_counts_eq (a b c : Z) :
  0 < b -> (inject_Z a / inject_Z b == inject_Z c)%Q <-> a = c * b.
Proof.
  intros Hb. destruct b as [|b|b]; try lia.
  unfold Qeq, Qdiv, Qmult, Qinv, inject_Z. cbn. lia.
Qed.

(** The progress reported lies between 0 and 1. *)
Lemma progressQuery_bounds rows :
  (0 <= changesetSpecMigratorProgressQuery rows)%Q
  /\ (changesetSpecMigratorProgressQuery rows <= 1)%Q.
Proof.
  pose proof (countMigrated_bounds rows) as Hc.
  destruct (decide (countAll rows = 0)) as [H0|H0].
  - rewrite progressQuery_empty by done. done.
  - rewrite progressQuery_nonempty by done. apply Qdiv_counts_le; lia.
Qed.

(** The progress reported is 1 exactly when no row is migrated. *)
Lemma progressQuery_one rows :
  (changesetSpecMigratorProgressQuery rows == 1)%Q
  <-> Forall (fun r => migrated r = false) rows.
Proof.
  rewrite <- countMigrated_zero.
  pose proof (countMigrated_bounds rows) as Hc.
  destruct (decide (countAll rows = 0)) as [H0|H0].
  - rewrite progressQuery_empty by done. split; [lia | done].
  - rewrite progressQuery_nonempty by done.
    rewrite (Qdiv_counts_eq _ _ 1) by lia. lia.
Qed.

(** The progress reported is 0 exactly when the table has rows and all of
    them are migrated. *)
Lemma progressQuery_zero rows :
  (changesetSpecMigratorProgressQuery rows == 0)%Q
  <-> rows <> [] /\ Forall (fun r => migrated r = true) rows.
Proof.
  rewrite <- countMigrated_all.
  pose proof (countMigrated_bounds rows) as Hc.
  assert (rows <> [] <-> countAll rows <> 0) as ->
    by (unfold countAll; destruct rows; cbn; split; (done || lia)).
  destruct (decide (countAll rows = 0)) as [H0|H0].
  - rewrite progressQuery_empty by done. split; [done | tauto].
  - rewrite progressQuery_nonempty by done.
    rewrite (Qdiv_counts_eq _ _ 0) by lia. lia.
Qed.

(** C6. [Progress] reports the share of rows that are not migrated: 0 for a
    table whose single row is migrated, 1 for a table whose single row is
    not. In general the value lies in [[0,1]], is 1 exactly when no row is
    migrated, and is 0 exactly when there are rows and all are migrated. *)
Theorem Progress_counts_rows_not_migrated :
  Progress (sample.allMigrated 1) = Ok (0 # 1)%Q
  /\ Progress sample.oneUnmigrated = Ok (1 # 1)%Q
  /\ forall rows,
       exists p,
         Progress {| changeset_specs := rows; broken := None |} = Ok p
         /\ (0 <= p)%Q /\ (p <= 1)%Q
         /\ ((p == 1)%Q <-> Forall (fun r => migrated r = false) rows)
         /\ ((p == 0)%Q <-> rows <> [] /\ Forall (fun r => migrated r = true) rows).
Proof.
  split; [by vm_compute | split; [by vm_compute |]].
  intros rows. exists (changesetSpecMigratorProgressQuery rows).
  split; [done|].
  pose proof (progressQuery_bounds rows) as [? ?].
  pose proof (progressQuery_one rows). pose proof (progressQuery_zero rows).
  done.
Qed.

(** What the [UPDATE] of [Down] does to the table. *)
Lemma downQuery_fmap rows :
  changesetSpecMigratorDownQuery rows
  = (fun r => {| id := id r; migrated := false; columns := columns r |}) <$> rows.
Proof.
  unfold changesetSpecMigratorDownQuery. apply list_fmap_ext.
  intros k r _. by rewrite decide_True.
Qed.

(** [Down] changes the flag of every migrated row. *)
Lemma changedRows_downQuery rows :
  changedRows rows (changesetSpecMigratorDownQuery rows) = countMigrated rows.
Proof.
  rewrite downQuery_fmap.
  induction rows as [|r rows IH]; [done|].
  rewrite fmap_cons, countMigrated_cons. cbn [changedRows migrated].
  rewrite IH. destruct (migrated r); by case_decide.
Qed.

(** A failing [Down] leaves the store as it was. *)
Lemma Down_error s s' (e : string) : Down s = (s', Some e) -> s' = s /\ broken s = Some e.
Proof.
  unfold Down. destruct (broken s) as [e'|] eqn:Hbroken; [|done].
  by intros [= <- <-].
Qed.

(** C7 (as stated). On a table of 101 migrated rows a single [Down]
    succeeds and reverses all 101 of them, one more than the 100 rows a call
    to [Up] handles. *)
Lemma Down_reverses_more_than_a_batch :
  snd (Down (sample.allMigrated 101)) = None
  /\ changedRows (changeset_specs (sample.allMigrated 101))
                 (changeset_specs (fst (Down (sample.allMigrated 101)))) = 101
  /\ changesetSpecMigrationCountPerRun = 100.
Proof. split; [|split]; by vm_compute. Qed.

(** C7 (amended). A successful call to [Down] reverses every row of the
    table at once, however many there are: afterwards no row is migrated,
    the rows whose flag changed are all those that were migrated, and the
    number of rows, their ids and their other columns are as before. *)
Theorem Down_reverses_every_row s s' :
  Down s = (s', None) ->
  changeset_specs s'
  = (fun r => {| id := id r; migrated := false; columns := columns r |})
      <$> changeset_specs s
  /\ length (changeset_specs s') = length (changeset_specs s)
  /\ Forall (fun r => migrated r = false) (changeset_specs s')
  /\ changedRows (changeset_specs s) (changeset_specs s')
     = countMigrated (changeset_specs s)
  /\ broken s' = broken s.
Proof.
  unfold Down. destruct (broken s) as [e|] eqn:Hbroken; [done|].
  intros [= <-]. cbn [changeset_specs broken].
  split; [apply downQuery_fmap|]. split; [|split; [|split]].
  - by rewrite downQuery_fmap, length_fmap.
  - rewrite downQuery_fmap. apply Forall_fmap, Forall_true. done.
  - apply changedRows_downQuery.
  - done.
Qed.

(** [Down] on a table of three migrated rows. *)
Lemma Down_reverses_every_row_witness :
  changeset_specs (fst (Down (sample.allMigrated 3)))
  = (fun r => {| id := id r; migrated := false; columns := columns r |})
      <$> changeset_specs (sample.allMigrated 3)
  /\ length (changeset_specs (fst (Down (sample.allMigrated 3))))
     = length (changeset_specs (sample.allMigrated 3))
  /\ Forall (fun r => migrated r = false)
            (changeset_specs (fst (Down (sample.allMigrated 3))))
  /\ changedRows (changeset_specs (sample.allMigrated 3))
                 (changeset_specs (fst (Down (sample.allMigrated 3))))
     = countMigrated (changeset_specs (sample.allMigrated 3))
  /\ broken (fst (Down (sample.allMigrated 3))) = broken (sample.allMigrated 3).
Proof.
  apply (Down_reverses_every_row (sample.allMigrated 3)
           (fst (Down (sample.allMigrated 3)))).
  reflexivity.
Defined.

(** X18. Let a [Down] have succeeded and let a later call find the table as
    that [Down] left it, with the connection in whatever state it then is.
    If that call is a [Progress] that succeeds, it reports 1; if it is a
    [Down] that succeeds, it leaves the table as it found it. *)
Theorem Down_then_Progress s s' later later' p :
  Down s = (s', None) ->
  changeset_specs later = changeset_specs s' ->
  (Progress later = Ok p -> (p == 1)%Q)
  /\ (Down later = (later', None) -> changeset_specs later' = changeset_specs s').
Proof.
  unfold Down at 1. destruct (broken s) as [e|] eqn:Hbroken; [done|].
  intros [= <-]. cbn [changeset_specs]. intros Htable. split.
  - unfold Progress. destruct (broken later) as [e|]; [done|].
    intros [= <-]. apply progressQuery_one. rewrite Htable, downQuery_fmap.
    apply Forall_fmap, Forall_true. done.
  - unfold Down. destruct (broken later) as [e|]; [done|].
    intros [= <-]. cbn [changeset_specs]. rewrite Htable.
    rewrite (downQuery_fmap (changeset_specs s)), downQuery_fmap.
    rewrite <- list_fmap_compose. by apply list_fmap_ext.
Qed.

(** [Down], then [Progress] and [Down] again, on a table of three migrated
    rows. *)
Lemma Down_then_Progress_witness :
  Progress (fst (Down (sample.allMigrated 3))) = Ok (3 # 3)%Q
  /\ (3 # 3 == 1)%Q
  /\ changeset_specs (fst (Down (fst (Down (sample.allMigrated 3)))))
     = changeset_specs (fst (Down (sample.allMigrated 3))).
Proof.
  split; [reflexivity|].
  destruct (Down_then_Progress (sample.allMigrated 3)
              (fst (Down (sample.allMigrated 3)))
              (fst (Down (sample.allMigrated 3)))
              (fst (Down (fst (Down (sample.allMigrated 3))))) (3 # 3)%Q
              eq_refl eq_refl) as [HProgress HDown].
  split; [by apply HProgress | by apply HDown].
Defined.

End migrator_facts.

(** ** Parsing and printing versions *)

Section parsing_facts.

Import strconv.

Implicit Types (s r : string) (c : ascii).

Lemma string_app_cons c s1 s2 :
  String.String c s1 +:+ s2 = String.String c (s1 +:+ s2).
Proof. reflexivity. Qed.

Lemma string_app_nil_l s : EmptyString +:+ s = s.
Proof. reflexivity. Qed.

Lemma string_app_assoc s1 s2 s3 : (s1 +:+ s2) +:+ s3 = s1 +:+ s2 +:+ s3.
Proof.
  induction s1 as [|c s1 IH]; [done|].
  by rewrite !string_app_cons, IH.
Qed.

Lemma string_app_nil_r s : s +:+ EmptyString = s.
Proof.
  induction s as [|c s IH]; [done|]. by rewrite string_app_cons, IH.
Qed.

Lemma allDigits_app s1 s2 :
  allDigits (s1 +:+ s2) = allDigits s1 && allDigits s2.
Proof.
  induction s1 as [|c s1 IH]; [done|].
  rewrite string_app_cons. cbn [allDigits]. by rewrite IH, andb_assoc.
Qed.

Lemma decimalValue_app acc s1 s2 :
  decimalValue acc (s1 +:+ s2) = decimalValue (decimalValue acc s1) s2.
Proof.
  revert acc. induction s1 as [|c s1 IH]; intros acc; [done|].
  rewrite string_app_cons. cbn [decimalValue]. apply IH.
Qed.

(** A digit is none of the other bytes the parsers look for. *)
Lemma isDigit_not_special c :
  isDigit c = true ->
  c <> "v"%char /\ c <> "."%char /\ c <> "-"%char /\ c <> "+"%char.
Proof. intros H. repeat split; intros ->; discriminate H. Qed.

(** [spanDigits] splits its argument into a run of digits and a rest that
    does not start with a digit. *)
Lemma spanDigits_spec s ds rest :
  spanDigits s = (ds, rest) ->
  s = ds +:+ rest /\ allDigits ds = true
  /\ (forall c r, rest = String.String c r -> isDigit c = false).
Proof.
  revert ds rest. induction s as [|c s IH]; intros ds rest; cbn [spanDigits].
  - intros [= <- <-]. by repeat split.
  - destruct (isDigit c) eqn:Hc.
    + destruct (spanDigits s) as [ds' rest'] eqn:Hspan. intros [= <- <-].
      destruct (IH _ _ eq_refl) as (-> & Hds & Hrest).
      rewrite string_app_cons. cbn [allDigits]. rewrite Hc. by repeat split.
    + intros [= <- <-]. split; [done|]. split; [done|].
      by intros c' r [= <- <-].
Qed.

(** A run of digits followed by something that is not a digit is what
    [spanDigits] splits off. *)
Lemma spanDigits_app ds rest :
  allDigits ds = true ->
  (forall c r, rest = String.String c r -> isDigit c = false) ->
  spanDigits (ds +:+ rest) = (ds, rest).
Proof.
  intros Hds Hrest. induction ds as [|c ds IH].
  - rewrite string_app_nil_l. destruct rest as [|c r]; [done|].
    cbn [spanDigits]. by rewrite (Hrest c r).
  - cbn [allDigits] in Hds. apply andb_true_iff in Hds as [Hc Hds].
    rewrite string_app_cons. cbn [spanDigits]. by rewrite Hc, IH.
Qed.

Lemma spanDigits_all ds : allDigits ds = true -> spanDigits ds = (ds, EmptyString).
Proof.
  intros Hds. rewrite <- (string_app_nil_r ds) at 1.
  by apply spanDigits_app.
Qed.

Lemma skipV_spec s :
  (s = String.String "v" (skipV s))
  \/ (skipV s = s /\ forall r, s <> String.String "v" r).
Proof.
  destruct s as [|c r]; [by right|].
  destruct (decide (c = "v"%char)) as [->|Hc]; [by left|].
  right. split; [|congruence].
  destruct c as [[] [] [] [] [] [] [] []]; try reflexivity. by destruct Hc.
Qed.

Lemma afterDot_Some s r : afterDot s = Some r <-> s = String.String "." r.
Proof.
  split; [|by intros ->].
  destruct s as [|c r']; [done|].
  destruct c as [[] [] [] [] [] [] [] []]; try discriminate.
  by intros [= ->].
Qed.

Lemma splitSign_digit c r :
  isDigit c = true -> splitSign (String.String c r) = (false, String.String c r).
Proof.
  destruct c as [[] [] [] [] [] [] [] []]; try reflexivity; discriminate.
Qed.

(** On a non-empty string of digits [Atoi] yields the number it denotes, or
    the largest [int] when that number is larger. *)
Lemma Atoi_digits s :
  digits s ->
  fst (Atoi s) = Z.min (Z.of_N (decimalValue 0 s)) GoInt.maxInt
  /\ 0 <= fst (Atoi s) <= GoInt.maxInt.
Proof.
  intros [Hne Hds]. destruct s as [|c r]; [done|].
  assert (isDigit c = true) as Hc
    by (cbn [allDigits] in Hds; by apply andb_true_iff in Hds as [? _]).
  unfold Atoi. rewrite (splitSign_digit c r Hc), Hds.
  cbv zeta. case_decide; cbn [fst]; unfold GoInt.maxInt in *; lia.
Qed.

(** The pattern accepts nothing but the strings of [versionSyntax]. *)
Lemma FindStringSubmatch_sound v :
  versionPatternFindStringSubmatch v = []
  \/ exists major minor,
       versionPatternFindStringSubmatch v = [v; major; minor]
       /\ versionSyntax v major minor.
Proof.
  unfold versionPatternFindStringSubmatch.
  destruct (spanDigits (skipV v)) as [major afterMajor] eqn:Hmajor.
  apply spanDigits_spec in Hmajor as (Hv & Hmajor & _).
  destruct major as [|c0 major']; [by left|].
  destruct (afterDot afterMajor) as [r|] eqn:Hdot; [|by left].
  apply afterDot_Some in Hdot as ->.
  destruct (spanDigits r) as [minor afterMinor] eqn:Hminor.
  apply spanDigits_spec in Hminor as (-> & Hminor & _).
  destruct minor as [|c1 minor']; [by left|].
  assert (exists prefix, (prefix = EmptyString \/ prefix = "v")
                         /\ v = prefix +:+ skipV v) as (prefix & Hprefix & Hskip).
  { destruct (skipV_spec v) as [Hs | [Hs _]].
    - exists "v". split; [by right|]. by rewrite Hs at 1.
    - exists EmptyString. split; [by left|]. by rewrite Hs. }
  destruct afterMinor as [|c2 r2].
  { right. eexists _, _. split; [done|].
    exists prefix, EmptyString.
    split; [by rewrite Hskip at 1; rewrite Hv|].
    repeat split; try done. by left. }
  destruct (afterDot (String.String c2 r2)) as [r'|] eqn:Hdot; [|by left].
  apply afterDot_Some in Hdot as [= -> ->].
  destruct (spanDigits r') as [patch afterPatch] eqn:Hpatch.
  apply spanDigits_spec in Hpatch as (-> & Hpatch & _).
  destruct patch as [|c3 patch']; [by left|].
  destruct afterPatch; [|by left].
  right. eexists _, _. split; [done|].
  exists prefix, ("." +:+ String.String c3 patch').
  split; [by rewrite Hskip at 1; rewrite Hv, string_app_nil_r|].
  repeat split; try done. right. by eexists.
Qed.

(** The pattern accepts every string of [versionSyntax], with those groups. *)
Lemma FindStringSubmatch_complete v major minor :
  versionSyntax v major minor ->
  versionPatternFindStringSubmatch v = [v; major; minor].
Proof.
  intros (prefix & suffix & Hv & Hprefix & [Hmajor0 Hmajor] & [Hminor0 Hminor]
          & Hsuffix).
  assert (skipV v = major +:+ "." +:+ minor +:+ suffix) as Hskip.
  { destruct Hprefix as [-> | ->]; [|by rewrite Hv].
    rewrite string_app_nil_l in Hv. rewrite <- Hv.
    destruct (skipV_spec v) as [Hs | [Hs _]]; [|done].
    destruct major as [|c major']; [done|].
    rewrite Hv, string_app_cons in Hs. injection Hs as -> _.
    discriminate Hmajor. }
  unfold versionPatternFindStringSubmatch. rewrite Hskip.
  rewrite spanDigits_app; [|done | by intros c r [= <- _]].
  destruct major as [|c0 major']; [done|].
  change (afterDot ("." +:+ minor +:+ suffix)) with (Some (minor +:+ suffix)).
  cbv iota beta.
  destruct minor as [|c1 minor']; [done|].
  destruct Hsuffix as [-> | (patch & -> & Hpatch0 & Hpatch)].
  - by rewrite string_app_nil_r, spanDigits_all.
  - rewrite spanDigits_app; [|done | by intros c r [= <- _]].
    change ("." +:+ patch) with (String.String "." patch). cbv iota beta.
    change (afterDot (String.String "." patch)) with (Some patch).
    cbv iota beta. rewrite spanDigits_all by done. by destruct patch.
Qed.

Lemma NewVersionFromString_match v major minor :
  versionPatternFindStringSubmatch v = [v; major; minor] ->
  NewVersionFromString v
  = (NewVersion (fst (Atoi major)) (fst (Atoi minor)), true).
Proof. intros H. unfold NewVersionFromString. by rewrite H. Qed.

Lemma NewVersionFromString_no_match v :
  versionPatternFindStringSubmatch v = [] ->
  NewVersionFromString v = (NewVersion 0 0, false).
Proof. intros H. unfold NewVersionFromString. by rewrite H. Qed.

(** A string of the pattern parses to the numbers of its two groups. *)
Lemma NewVersionFromString_of_syntax v major minor :
  versionSyntax v major minor ->
  NewVersionFromString v
  = (NewVersion (groupValue major) (groupValue minor), true).
Proof.
  intros Hsyntax.
  rewrite (NewVersionFromString_match v major minor)
    by (by apply FindStringSubmatch_complete).
  destruct Hsyntax as (prefix & suffix & Hv & Hprefix & Hmajor & Hminor & Hsuffix).
  destruct (Atoi_digits major Hmajor) as [-> _].
  by destruct (Atoi_digits minor Hminor) as [-> _].
Qed.

(** X4. [NewVersionFromString] accepts exactly the strings made of an
    optional [v], digits, a dot, digits, and optionally a dot and more
    digits. The version it returns holds the numbers the first two groups of
    digits denote, each replaced by the largest [int] when it is larger than
    that; a string it rejects yields the zero version. *)
Theorem NewVersionFromString_accepts (v : string) :
  (forall version,
     NewVersionFromString v = (version, true)
     <-> exists major minor,
           versionSyntax v major minor
           /\ version = NewVersion (groupValue major) (groupValue minor))
  /\ (snd (NewVersionFromString v) = false
      <-> forall major minor, ~ versionSyntax v major minor)
  /\ (snd (NewVersionFromString v) = false ->
      fst (NewVersionFromString v) = NewVersion 0 0).
Proof.
  destruct (FindStringSubmatch_sound v) as [Hnone | (major & minor & Hsome & Hsyntax)].
  - assert (forall major minor, ~ versionSyntax v major minor) as Hno.
    { intros major minor Hsyntax.
      apply FindStringSubmatch_complete in Hsyntax. congruence. }
    rewrite (NewVersionFromString_no_match v Hnone). split; [|split].
    + intros version. split; [done|]. intros (major & minor & Hsyntax & _).
      by destruct (Hno major minor).
    + done.
    + done.
  - rewrite (NewVersionFromString_match v major minor Hsome).
    destruct Hsyntax as (prefix & suffix & Hv & Hprefix & Hmajor & Hminor & Hsuffix).
    destruct (Atoi_digits major Hmajor) as [HM _].
    destruct (Atoi_digits minor Hminor) as [Hm _].
    assert (versionSyntax v major minor) as Hsyntax
      by (exists prefix, suffix; done).
    split; [|split].
    + intros version. split.
      * intros [= <-]. exists major, minor. split; [done|].
        unfold groupValue. by rewrite HM, Hm.
      * intros (major' & minor' & Hsyntax' & ->).
        apply FindStringSubmatch_complete in Hsyntax'.
        rewrite Hsome in Hsyntax'. injection Hsyntax' as <- <-.
        unfold groupValue. by rewrite HM, Hm.
    + cbn [snd]. split; [done|]. intros Hno. by destruct (Hno major minor).
    + done.
Qed.

(** X5. Whatever string it is given, [NewVersionFromString] returns a
    version whose major and minor lie between 0 and the largest [int]. *)
Theorem NewVersionFromString_range (v : string) :
  0 <= Major (fst (NewVersionFromString v)) <= GoInt.maxInt
  /\ 0 <= Minor (fst (NewVersionFromString v)) <= GoInt.maxInt.
Proof.
  destruct (FindStringSubmatch_sound v) as [Hnone | (major & minor & Hsome & Hsyntax)].
  - rewrite (NewVersionFromString_no_match v Hnone).
    cbn. unfold GoInt.maxInt. lia.
  - rewrite (NewVersionFromString_match v major minor Hsome).
    destruct Hsyntax as (prefix & suffix & Hv & Hprefix & Hmajor & Hminor & Hsuffix).
    destruct (Atoi_digits major Hmajor) as [_ HM].
    destruct (Atoi_digits minor Hminor) as [_ Hm].
    by cbn [fst Major Minor NewVersion].
Qed.

(** The digit [pretty] prints for a number below 10. *)
Lemma pretty_N_char_digit (y : N) :
  (y < 10)%N ->
  isDigit (pretty_N_char y) = true /\ digitValue (pretty_N_char y) = y.
Proof.
  intros Hy.
  assert (y = 0 \/ y = 1 \/ y = 2 \/ y = 3 \/ y = 4 \/ y = 5 \/ y = 6 \/ y = 7
          \/ y = 8 \/ y = 9)%N as Hcases by lia.
  repeat (destruct Hcases as [-> | Hcases]; [by vm_compute|]).
  subst y. by vm_compute.
Qed.

(** The digits [pretty] puts in front of [s] denote [x]. *)
Lemma pretty_N_go_digits (x : N) s :
  exists ds,
    pretty_N_go x s = ds +:+ s
    /\ allDigits ds = true
    /\ decimalValue 0 ds = x
    /\ ((0 < x)%N -> ds <> EmptyString).
Proof.
  revert s. induction (N.lt_wf_0 x) as [x _ IH]; intros s.
  destruct (decide (x = 0%N)) as [-> | Hx].
  { exists EmptyString. rewrite pretty_N_go_0. split; [done|].
    split; [done|]. split; [done | lia]. }
  rewrite pretty_N_go_step by lia.
  destruct (IH (x `div` 10)%N) with
    (s := String.String (pretty_N_char (x `mod` 10)) s)
    as (ds & Hgo & Hds & Hvalue & _).
  { apply N.div_lt; lia. }
  destruct (pretty_N_char_digit (x `mod` 10)%N) as [Hc Hcv].
  { apply N.mod_lt. lia. }
  exists (ds +:+ String.String (pretty_N_char (x `mod` 10)) EmptyString).
  split; [by rewrite Hgo, string_app_assoc|]. split; [|split].
  - rewrite allDigits_app, Hds. cbn [allDigits]. by rewrite Hc.
  - rewrite decimalValue_app, Hvalue. cbn [decimalValue]. rewrite Hcv.
    pose proof (N.div_mod x 10). lia.
  - intros _. by destruct ds.
Qed.

Lemma pretty_N_digits (n : N) :
  digits (pretty n) /\ decimalValue 0 (pretty n) = n.
Proof.
  unfold pretty, pretty_N. case_decide as Hn; [by subst n|].
  destruct (pretty_N_go_digits n EmptyString) as (ds & Hgo & Hds & Hvalue & Hne).
  rewrite string_app_nil_r in Hgo. rewrite Hgo.
  repeat split; try done. apply Hne. lia.
Qed.

(** A number that is not negative is printed as the digits that denote it. *)
Lemma pretty_Z_digits (z : Z) :
  0 <= z -> digits (pretty z) /\ Z.of_N (decimalValue 0 (pretty z)) = z.
Proof.
  intros Hz. destruct z as [|p|p]; [by vm_compute | | lia].
  change (pretty (Z.pos p)) with (pretty (N.pos p)).
  destruct (pretty_N_digits (N.pos p)) as [Hd ->]. done.
Qed.

(** X6. Printing a version whose major and minor lie between 0 and the
    largest [int], as [String] or as [GitTag] does, and parsing the result
    gives the version back. *)
Theorem NewVersionFromString_roundtrip (v : Version) :
  0 <= Major v <= GoInt.maxInt ->
  0 <= Minor v <= GoInt.maxInt ->
  NewVersionFromString (oobmigration.String v) = (v, true)
  /\ NewVersionFromString (GitTag v) = (v, true).
Proof.
  intros HM Hm.
  destruct (pretty_Z_digits (Major v)) as [HdM HvM]; [lia|].
  destruct (pretty_Z_digits (Minor v)) as [Hdm Hvm]; [lia|].
  assert (NewVersion (groupValue (pretty (Major v))) (groupValue (pretty (Minor v)))
          = v) as Hv.
  { unfold groupValue. rewrite HvM, Hvm, !Z.min_l by lia. by destruct v. }
  split.
  - rewrite <- Hv at 2. apply NewVersionFromString_of_syntax.
    exists EmptyString, EmptyString.
    split; [by rewrite string_app_nil_r|]. repeat split; try apply HdM; try apply Hdm; by left.
  - rewrite <- Hv at 2. apply NewVersionFromString_of_syntax.
    exists "v", ".0". split; [done|].
    repeat split; try apply HdM; try apply Hdm; [by right|].
    right. exists "0". by vm_compute.
Qed.

Lemma allDigits_noDot s : allDigits s = true -> noDot s = true.
Proof.
  induction s as [|c s IH]; [done|]. cbn [allDigits noDot].
  intros [Hc Hs]%andb_true_iff. rewrite IH by done.
  destruct (Ascii.eqb_spec c ".") as [-> | _]; [discriminate Hc | done].
Qed.

(** [%d] never prints a dot. *)
Lemma pretty_Z_noDot (z : Z) : noDot (pretty z) = true.
Proof.
  destruct z as [|p|p]; [done | |].
  - apply allDigits_noDot. change (pretty (Z.pos p)) with (pretty (N.pos p)).
    by destruct (pretty_N_digits (N.pos p)) as [[_ ?] _].
  - change (pretty (Z.neg p)) with (String.String "-" (pretty (N.pos p))).
    cbn [noDot].
    rewrite allDigits_noDot; [done|].
    by destruct (pretty_N_digits (N.pos p)) as [[_ ?] _].
Qed.

(** Two strings without dots, each followed by a dot, can only be followed
    by the same text if they are the same. *)
Lemma split_at_dot s1 s2 r1 r2 :
  noDot s1 = true -> noDot s2 = true ->
  s1 +:+ "." +:+ r1 = s2 +:+ "." +:+ r2 ->
  s1 = s2 /\ r1 = r2.
Proof.
  revert s2. induction s1 as [|c1 s1 IH]; intros [|c2 s2] H1 H2 Heq;
    repeat rewrite ?string_app_nil_l, ?string_app_cons in Heq.
  - by injection Heq as ->.
  - injection Heq as <- _. cbn [noDot] in H2.
    by rewrite Ascii.eqb_refl in H2.
  - injection Heq as -> _. cbn [noDot] in H1.
    by rewrite Ascii.eqb_refl in H1.
  - injection Heq as <- Heq.
    cbn [noDot] in H1, H2.
    apply andb_true_iff in H1 as [_ H1]. apply andb_true_iff in H2 as [_ H2].
    destruct (IH s2 H1 H2 Heq) as [-> ->]. done.
Qed.

Lemma String_inj (v w : Version) : oobmigration.String v = oobmigration.String w -> v = w.
Proof.
  unfold oobmigration.String. intros Heq.
  apply split_at_dot in Heq as [HM Hm]; [|apply pretty_Z_noDot..].
  apply (inj pretty) in HM. apply (inj pretty) in Hm.
  destruct v, w; cbn in *; congruence.
Qed.

Lemma GitTag_inj (v w : Version) : GitTag v = GitTag w -> v = w.
Proof.
  unfold GitTag. intros Heq. injection Heq as Heq.
  apply split_at_dot in Heq as [HM Heq]; [|apply pretty_Z_noDot..].
  apply (split_at_dot _ _ "0" "0") in Heq as [Hm _]; [|apply pretty_Z_noDot..].
  apply (inj pretty) in HM. apply (inj pretty) in Hm.
  destruct v, w; cbn in *; congruence.
Qed.

(** X7. Different versions never share a tag, nor a textual form: [GitTag]
    and [String] are injective. *)
Theorem GitTag_String_injective :
  (forall v w : Version, GitTag v = GitTag w -> v = w)
  /\ (forall v w : Version, oobmigration.String v = oobmigration.String w -> v = w).
Proof. split; [apply GitTag_inj | apply String_inj]. Qed.

(** X8. [gitTags] returns the tag of every version of its argument, in the
    same order: as many tags as versions, the tag of the [i]-th version at
    index [i], and no tag twice unless a version occurs twice. *)
Theorem gitTags_one_tag_per_version (versions : list Version) :
  length (cliutil.gitTags versions) = length versions
  /\ (forall i, cliutil.gitTags versions !! i = GitTag <$> versions !! i)
  /\ (NoDup versions -> NoDup (cliutil.gitTags versions))
  /\ (forall v, GitTag v ∈ cliutil.gitTags versions <-> v ∈ versions).
Proof.
  rewrite gitTags_fmap. split; [by rewrite length_fmap|]. split; [|split].
  - intros i. apply list_lookup_fmap.
  - intros Hnodup. apply NoDup_fmap_2_strong; [|done].
    intros v w _ _. apply GitTag_inj.
  - intros v. rewrite list_elem_of_fmap. split.
    + intros (w & Heq & Hw). by rewrite (GitTag_inj v w Heq).
    + intros Hv. by exists v.
Qed.

End parsing_facts.

(** ** The shape of every range [MakeUpgradeRange] returns *)

(** What the loop has appended when it ends: nothing, if [v] is already
    after [to]; otherwise the chain of bumps from [v] up to the last one that
    is not after [to]. *)
Lemma upgradeLoop_result (fuel : nat) (to v : Version) (versions l : list Version) :
  upgradeLoop fuel to v versions = Some l ->
  (CompareVersions v to = VersionOrderAfter /\ l = versions)
  \/ exists n,
       l = versions ++ bumpChain v n
       /\ Forall (fun x => CompareVersions x to <> VersionOrderAfter) (bumpChain v n)
       /\ CompareVersions (Nat.iter (S n) bump v) to = VersionOrderAfter.
Proof.
  revert v versions. induction fuel as [|fuel IH]; intros v versions Hrun; [done|].
  cbn [upgradeLoop] in Hrun. case_decide as Hv.
  - right. case_decide as Hlen; [|done]. apply IH in Hrun as [[Hafter ->] | (n & -> & Hchain & Hexit)].
    + exists 0%nat. cbn [bumpChain]. split; [done|]. split; [|done].
      by repeat constructor.
    + exists (S n). cbn [bumpChain]. split; [by rewrite <- app_assoc|].
      split; [by constructor|]. by rewrite Nat.iter_succ_r.
  - left. injection Hrun as <-. split; [|done].
    by destruct (CompareVersions v to).
Qed.

(** [bump] moves forward in the version order unless a component is the
    largest [int]. *)
Lemma bump_Before (v : Version) :
  representable v -> Major v < GoInt.maxInt -> Minor v < GoInt.maxInt ->
  CompareVersions v (bump v) = VersionOrderBefore.
Proof.
  intros [HM Hm] HMmax Hmmax. apply CompareVersions_Before.
  unfold bump. case_decide; cbn [Major Minor NewVersion];
    rewrite add_1_below_max by (unfold_int; lia); lia.
Qed.

Lemma bumpChain_representable (v : Version) (n : nat) :
  representable v -> Forall representable (bumpChain v n).
Proof.
  revert v. induction n as [|n IH]; intros v Hv; cbn [bumpChain].
  - constructor; [done | constructor].
  - constructor; [done|]. by apply IH, bump_representable.
Qed.

Lemma bumpChain_Sorted (v : Version) (n : nat) :
  representable v ->
  Forall (fun x => Major x < GoInt.maxInt /\ Minor x < GoInt.maxInt) (bumpChain v n) ->
  Sorted (fun a b => CompareVersions a b = VersionOrderBefore) (bumpChain v n).
Proof.
  revert v. induction n as [|n IH]; intros v Hv Hmax; cbn [bumpChain] in *.
  - by repeat constructor.
  - apply Forall_cons in Hmax as [[HM Hm] Hmax].
    constructor; [by apply IH; [apply bump_representable|]|].
    destruct n; cbn [bumpChain]; constructor; by apply bump_Before.
Qed.

(** X9. Every sequence [MakeUpgradeRange] returns starts at [from], holds
    no version after [to], continues from each element with its [bump], and
    stops at the first element whose bump is after [to]. *)
Theorem MakeUpgradeRange_result (fuel : nat) (from to : Version)
    (versions : list Version) :
  MakeUpgradeRange fuel from to = Some (Ok versions) ->
  head versions = Some from
  /\ Forall (fun v => CompareVersions v to <> VersionOrderAfter) versions
  /\ (forall k v, versions !! k = Some v -> (S k < length versions)%nat ->
        versions !! S k = Some (bump v))
  /\ (exists v, last versions = Some v
                /\ CompareVersions (bump v) to = VersionOrderAfter)
  /\ versions = bumpChain from (length versions - 1).
Proof.
  unfold MakeUpgradeRange. case_decide as Hfrom; [done|].
  destruct (upgradeLoop fuel to from []) as [l|] eqn:Hrun; [|done].
  intros [= <-].
  apply upgradeLoop_result in Hrun as [[Hafter _] | (n & -> & Hchain & Hexit)];
    [done|].
  rewrite app_nil_l, bumpChain_length. split; [apply bumpChain_head|].
  split; [done|]. split; [|split].
  - intros k v Hk Hlt. rewrite bumpChain_lookup in Hk by lia.
    injection Hk as <-. by rewrite bumpChain_lookup by lia.
  - exists (Nat.iter n bump from). by rewrite bumpChain_last.
  - f_equal. lia.
Qed.

(** The range the code returns from [{3,46}] to [{4,1}]. *)
Lemma MakeUpgradeRange_result_witness :
  head [NewVersion 3 46; NewVersion 3 47; NewVersion 4 0] = Some (NewVersion 3 46)
  /\ Forall (fun v => CompareVersions v (NewVersion 4 1) <> VersionOrderAfter)
            [NewVersion 3 46; NewVersion 3 47; NewVersion 4 0]
  /\ (forall k v,
        [NewVersion 3 46; NewVersion 3 47; NewVersion 4 0] !! k = Some v ->
        (S k < length [NewVersion 3 46; NewVersion 3 47; NewVersion 4 0])%nat ->
        [NewVersion 3 46; NewVersion 3 47; NewVersion 4 0] !! S k = Some (bump v))
  /\ (exists v, last [NewVersion 3 46; NewVersion 3 47; NewVersion 4 0] = Some v
                /\ CompareVersions (bump v) (NewVersion 4 1) = VersionOrderAfter)
  /\ [NewVersion 3 46; NewVersion 3 47; NewVersion 4 0]
     = bumpChain (NewVersion 3 46)
         (length [NewVersion 3 46; NewVersion 3 47; NewVersion 4 0] - 1).
Proof.
  apply (MakeUpgradeRange_result 4 (NewVersion 3 46) (NewVersion 4 1)).
  vm_compute. reflexivity.
Defined.

(** X10. A sequence [MakeUpgradeRange] returns is strictly ascending in the
    version order, provided the major of [to] is below the largest [int] and
    no minor in the sequence is the largest [int] (where [bump] would wrap
    around). *)
Theorem MakeUpgradeRange_ascending (fuel : nat) (from to : Version)
    (versions : list Version) :
  MakeUpgradeRange fuel from to = Some (Ok versions) ->
  representable from ->
  Major to < GoInt.maxInt ->
  Forall (fun v => Minor v < GoInt.maxInt) versions ->
  StronglySorted (fun a b => CompareVersions a b = VersionOrderBefore) versions.
Proof.
  intros Hrun Hfrom Hto Hminor.
  assert (Forall (fun v => CompareVersions v to <> VersionOrderAfter) versions) as Hle.
  { unfold MakeUpgradeRange in Hrun. case_decide; [done|].
    destruct (upgradeLoop fuel to from []) as [l|] eqn:Hloop; [|done].
    injection Hrun as <-.
    by apply upgradeLoop_result in Hloop as [[? _] | (n & -> & ? & _)]. }
  assert (versions = bumpChain from (length versions - 1)) as Hchain.
  { unfold MakeUpgradeRange in Hrun. case_decide; [done|].
    destruct (upgradeLoop fuel to from []) as [l|] eqn:Hloop; [|done].
    injection Hrun as <-.
    apply upgradeLoop_result in Hloop as [[? _] | (n & -> & _ & _)]; [done|].
    rewrite app_nil_l, bumpChain_length. f_equal. lia. }
  rewrite Hchain. apply Sorted_StronglySorted.
  { intros a b c. apply CompareVersions_Before_trans. }
  apply bumpChain_Sorted; [done|]. rewrite <- Hchain.
  rewrite Forall_forall in Hle, Hminor. apply Forall_forall. intros v Hv.
  split; [|by apply Hminor].
  specialize (Hle v Hv). apply CompareVersions_not_After in Hle. lia.
Qed.

(** The range from [{3,45}] to [{4,0}] ascends. *)
Lemma MakeUpgradeRange_ascending_witness :
  StronglySorted (fun a b => CompareVersions a b = VersionOrderBefore)
    [NewVersion 3 45; NewVersion 3 46; NewVersion 3 47; NewVersion 4 0].
Proof.
  apply (MakeUpgradeRange_ascending 5 (NewVersion 3 45) (NewVersion 4 0)).
  - vm_compute. reflexivity.
  - split; cbn; unfold GoInt.inRange, GoInt.minInt, GoInt.maxInt; lia.
  - cbn. unfold GoInt.maxInt. lia.
  - repeat constructor; cbn; unfold GoInt.maxInt; lia.
Defined.

(** ** The planner's calls, failures and steps *)

Section planner_outcomes.

Import cliutil.

Context {Definitions E : Type}.
Variable SchemaNames : list string.
Variable StitchDefinitions :
  string -> string -> list string -> result E (Definitions * gmap string (list Z)).
Variable ScheduleMigrationInterrupts :
  Version -> Version -> result E (list MigrationInterrupt.t).

Implicit Types (log : list Call) (versionRange : list Version).
Implicit Types (metadataBySchemaName : gmap string (@migrationGraphMetadata Definitions)).

Local Abbreviation stitchCalls schemaNames versionRange :=
  ((fun schemaName =>
      CallStitchDefinitions schemaName repositoryRoot (gitTags versionRange))
     <$> schemaNames).

(** A failing run of the metadata loop stitched the schema names up to the
    first one that fails, and returns the error of that one. *)
Lemma metadataLoop_Err schemaNames versionRange metadataBySchemaName log log' e :
  metadataLoop StitchDefinitions schemaNames versionRange metadataBySchemaName log
  = (log', Err e) ->
  exists stitched failing rest,
    schemaNames = stitched ++ failing :: rest
    /\ Forall (fun schemaName =>
                 exists r, StitchDefinitions schemaName repositoryRoot
                             (gitTags versionRange) = Ok r) stitched
    /\ StitchDefinitions failing repositoryRoot (gitTags versionRange) = Err e
    /\ log' = log ++ stitchCalls (stitched ++ [failing]) versionRange.
Proof.
  revert metadataBySchemaName log.
  induction schemaNames as [|name names IH]; intros metadataBySchemaName log Hrun;
    [done|].
  cbn [metadataLoop] in Hrun. unfold bind, stitch in Hrun.
  destruct (StitchDefinitions name repositoryRoot (gitTags versionRange))
    as [[definitions leafIDsByRev]|e'] eqn:Hstitch.
  - apply IH in Hrun as (stitched & failing & rest & -> & Hok & Hfail & ->).
    exists (name :: stitched), failing, rest. split; [done|].
    split; [constructor; eauto|]. split; [done|].
    by rewrite <- app_assoc.
  - injection Hrun as <- <-. exists [], name, names. by repeat split.
Qed.

Lemma metadataBySchemaNameForVersion_Ok_log versionRange log log' metadataBySchemaName :
  metadataBySchemaNameForVersion SchemaNames StitchDefinitions versionRange log
  = (log', Ok metadataBySchemaName) ->
  log' = log ++ ((fun schemaName =>
                    CallStitchDefinitions schemaName repositoryRoot
                      (GitTag <$> versionRange)) <$> SchemaNames).
Proof.
  intros Hrun. apply metadataLoop_Ok in Hrun as (-> & _ & _).
  by rewrite <- gitTags_fmap.
Qed.

(** X11. When [metadataBySchemaNameForVersion] succeeds it has called
    [StitchDefinitions] once for every schema name, in order, with the tags
    of the whole range, and the map it returns has exactly the schema names
    as keys, each with the leaves that call returned. *)
Theorem metadataBySchemaNameForVersion_Ok versionRange log log' metadataBySchemaName :
  metadataBySchemaNameForVersion SchemaNames StitchDefinitions versionRange log
  = (log', Ok metadataBySchemaName) ->
  log' = log ++ ((fun schemaName =>
                    CallStitchDefinitions schemaName repositoryRoot
                      (GitTag <$> versionRange)) <$> SchemaNames)
  /\ dom metadataBySchemaName = list_to_set SchemaNames
  /\ (forall schemaName, schemaName ∈ SchemaNames ->
        exists definitions leafIDsByRev,
          StitchDefinitions schemaName repositoryRoot (GitTag <$> versionRange)
          = Ok (definitions, leafIDsByRev)
          /\ metadataBySchemaName !! schemaName
             = Some (Build_migrationGraphMetadata definitions leafIDsByRev)).
Proof.
  intros Hrun. apply metadataLoop_Ok in Hrun as (-> & Hin & Hout).
  rewrite <- gitTags_fmap. split; [done|]. split; [|done].
  apply set_eq. intros name. rewrite elem_of_dom, elem_of_list_to_set.
  destruct (decide (name ∈ SchemaNames)) as [Hname|Hname].
  - destruct (Hin name Hname) as (? & ? & _ & ->). by split.
  - rewrite Hout by done. rewrite lookup_empty. split; [by intros [] | done].
Qed.

(** X12. When [metadataBySchemaNameForVersion] fails, the error is that of
    the first schema name whose [StitchDefinitions] fails, and no schema name
    after that one has been stitched. *)
Theorem metadataBySchemaNameForVersion_Err versionRange log log' e :
  metadataBySchemaNameForVersion SchemaNames StitchDefinitions versionRange log
  = (log', Err e) ->
  exists stitched failing rest,
    SchemaNames = stitched ++ failing :: rest
    /\ Forall (fun schemaName =>
                 exists r, StitchDefinitions schemaName repositoryRoot
                             (GitTag <$> versionRange) = Ok r) stitched
    /\ StitchDefinitions failing repositoryRoot (GitTag <$> versionRange) = Err e
    /\ log' = log ++ ((fun schemaName =>
                         CallStitchDefinitions schemaName repositoryRoot
                           (GitTag <$> versionRange)) <$> stitched ++ [failing]).
Proof.
  intros Hrun. apply metadataLoop_Err in Hrun.
  by rewrite gitTags_fmap in Hrun.
Qed.

(** X13. When [planUpgrade] fails, either stitching failed, and then
    [ScheduleMigrationInterrupts] was never called, or every schema was
    stitched and the error is that of [ScheduleMigrationInterrupts] for the
    first and last version of the range. *)
Theorem planUpgrade_Err versionRange log log' e :
  planUpgrade SchemaNames StitchDefinitions ScheduleMigrationInterrupts versionRange log
  = (log', Err e) ->
  exists from to,
    head versionRange = Some from /\ last versionRange = Some to
    /\ ((metadataBySchemaNameForVersion SchemaNames StitchDefinitions versionRange log
         = (log', Err e)
         /\ forall from' to', CallScheduleMigrationInterrupts from' to' ∈ log' ->
                              CallScheduleMigrationInterrupts from' to' ∈ log)
        \/ (ScheduleMigrationInterrupts from to = Err e
            /\ log' = log ++ ((fun schemaName =>
                                 CallStitchDefinitions schemaName repositoryRoot
                                   (GitTag <$> versionRange)) <$> SchemaNames)
                          ++ [CallScheduleMigrationInterrupts from to])).
Proof.
  intros Hrun. destruct versionRange as [|from rest]; [done|].
  exists from, (List.last (from :: rest) from).
  split; [done|]. split; [by apply last_default|].
  cbn [planUpgrade] in Hrun. unfold bind at 1 in Hrun.
  destruct (metadataBySchemaNameForVersion _ _ (from :: rest) log)
    as [log1 [metadataBySchemaName|e']] eqn:Hmeta.
  - right. unfold bind, schedule, ret in Hrun.
    destruct (ScheduleMigrationInterrupts from (List.last (from :: rest) from))
      as [interrupts|e'] eqn:Hsched; [done|].
    injection Hrun as <- <-. split; [done|].
    apply metadataBySchemaNameForVersion_Ok_log in Hmeta as ->.
    by rewrite <- app_assoc.
  - left. injection Hrun as <- <-. split; [done|].
    apply metadataLoop_Err in Hmeta as (stitched & failing & _ & _ & _ & _ & ->).
    intros from' to'. rewrite elem_of_app, list_elem_of_fmap.
    intros [? | (? & [=] & _)]. done.
Qed.

(** X14. When [planUpgrade] returns steps for a non-empty range, it has
    stitched every schema and then called [ScheduleMigrationInterrupts] once,
    for the first and last version of the range; every step lists exactly the
    schema names, and the versions and out-of-band IDs of the steps are those
    of the interrupts, followed by the last version with no ID. *)
Theorem planUpgrade_Ok versionRange log log' steps from to :
  planUpgrade SchemaNames StitchDefinitions ScheduleMigrationInterrupts versionRange log
  = (log', Ok steps) ->
  head versionRange = Some from ->
  last versionRange = Some to ->
  log' = log ++ ((fun schemaName =>
                    CallStitchDefinitions schemaName repositoryRoot
                      (GitTag <$> versionRange)) <$> SchemaNames)
             ++ [CallScheduleMigrationInterrupts from to]
  /\ Forall (fun step =>
               dom (LeafMigrationIDsBySchema step) = list_to_set SchemaNames) steps
  /\ exists interrupts,
       ScheduleMigrationInterrupts from to = Ok interrupts
       /\ InstanceVersion <$> steps
          = (MigrationInterrupt.Version <$> interrupts) ++ [to]
       /\ OutOfBandMigrationIDs <$> steps
          = (MigrationInterrupt.MigrationIDs <$> interrupts) ++ [[]].
Proof.
  intros Hrun Hhead Hlast. destruct versionRange as [|from' rest]; [done|].
  injection Hhead as ->.
  rewrite (last_default _ from) in Hlast by done.
  assert (List.last (from :: rest) from = to) as Hto by congruence.
  clear Hlast.
  cbn [planUpgrade] in Hrun. unfold bind at 1 in Hrun.
  destruct (metadataBySchemaNameForVersion _ _ (from :: rest) log)
    as [log1 [metadataBySchemaName|e']] eqn:Hmeta; [|done].
  unfold bind, schedule, ret in Hrun. rewrite Hto in Hrun.
  destruct (ScheduleMigrationInterrupts from to) as [interrupts|e'] eqn:Hsched;
    [|done].
  injection Hrun as <- <-.
  pose proof Hmeta as Hlog. apply metadataBySchemaNameForVersion_Ok_log in Hlog as ->.
  apply metadataLoop_Ok in Hmeta as (_ & Hin & Hout).
  assert (dom metadataBySchemaName = list_to_set SchemaNames) as Hdom.
  { apply set_eq. intros name. rewrite elem_of_dom, elem_of_list_to_set.
    destruct (decide (name ∈ SchemaNames)) as [Hname|Hname].
    - destruct (Hin name Hname) as (? & ? & _ & ->). by split.
    - rewrite Hout by done. rewrite lookup_empty. split; [by intros [] | done]. }
  rewrite foldl_snoc_fmap, app_nil_l. split; [by rewrite <- app_assoc|]. split.
  - apply Forall_app. split.
    + apply Forall_fmap, Forall_true. intros interrupt. unfold compose.
      cbn [makeUpgradeStep LeafMigrationIDsBySchema]. by rewrite dom_fmap_L.
    + constructor; [|constructor].
      cbn [makeUpgradeStep LeafMigrationIDsBySchema]. by rewrite dom_fmap_L.
  - exists interrupts. split; [done|].
    rewrite !fmap_app, <- !list_fmap_compose. done.
Qed.

End planner_outcomes.

(** Version 3.47 printed and parsed again. *)
Lemma NewVersionFromString_roundtrip_witness :
  NewVersionFromString (oobmigration.String (NewVersion 3 47)) = (NewVersion 3 47, true)
  /\ NewVersionFromString (GitTag (NewVersion 3 47)) = (NewVersion 3 47, true).
Proof.
  apply (NewVersionFromString_roundtrip (NewVersion 3 47));
    cbn; unfold GoInt.maxInt; lia.
Defined.

(** Stitching the two schemas of the sample. *)
Lemma metadataBySchemaNameForVersion_Ok_witness :
  sample.stitchCalls
  = [] ++ ((fun schemaName =>
              cliutil.CallStitchDefinitions schemaName cliutil.repositoryRoot
                (GitTag <$> sample.versionRange)) <$> sample.SchemaNames)
  /\ dom sample.metadata = list_to_set sample.SchemaNames
  /\ (forall schemaName, schemaName ∈ sample.SchemaNames ->
        exists definitions leafIDsByRev,
          sample.StitchDefinitions schemaName cliutil.repositoryRoot
            (GitTag <$> sample.versionRange)
          = Ok (definitions, leafIDsByRev)
          /\ sample.metadata !! schemaName
             = Some (cliutil.Build_migrationGraphMetadata definitions leafIDsByRev)).
Proof.
  apply (metadataBySchemaNameForVersion_Ok sample.SchemaNames
           sample.StitchDefinitions sample.versionRange [] sample.stitchCalls
           sample.metadata).
  vm_compute. reflexivity.
Defined.

(** Stitching stops at the schema the sample does not know. *)
Lemma metadataBySchemaNameForVersion_Err_witness :
  exists stitched failing rest,
    sample.SchemaNamesWithUnknown = stitched ++ failing :: rest
    /\ Forall (fun schemaName =>
                 exists r, sample.StitchDefinitions schemaName cliutil.repositoryRoot
                             (GitTag <$> sample.versionRange) = Ok r) stitched
    /\ sample.StitchDefinitions failing cliutil.repositoryRoot
         (GitTag <$> sample.versionRange) = Err "unknown schema"
    /\ sample.stitchCallsUnknown
       = [] ++ ((fun schemaName =>
                   cliutil.CallStitchDefinitions schemaName cliutil.repositoryRoot
                     (GitTag <$> sample.versionRange)) <$> stitched ++ [failing]).
Proof.
  apply (metadataBySchemaNameForVersion_Err sample.SchemaNamesWithUnknown
           sample.StitchDefinitions sample.versionRange [] sample.stitchCallsUnknown
           "unknown schema").
  vm_compute. reflexivity.
Defined.

(** Planning fails with the stitching error, before any schedule is asked
    for. *)
Lemma planUpgrade_Err_witness :
  exists from to,
    head sample.versionRange = Some from /\ last sample.versionRange = Some to
    /\ ((cliutil.metadataBySchemaNameForVersion sample.SchemaNamesWithUnknown
           sample.StitchDefinitions sample.versionRange []
         = (sample.stitchCallsUnknown, Err "unknown schema")
         /\ forall from' to',
              cliutil.CallScheduleMigrationInterrupts from' to' ∈ sample.stitchCallsUnknown ->
              cliutil.CallScheduleMigrationInterrupts from' to' ∈ [])
        \/ (sample.ScheduleMigrationInterrupts from to = Err "unknown schema"
            /\ sample.stitchCallsUnknown
               = [] ++ ((fun schemaName =>
                           cliutil.CallStitchDefinitions schemaName
                             cliutil.repositoryRoot (GitTag <$> sample.versionRange))
                          <$> sample.SchemaNamesWithUnknown)
                    ++ [cliutil.CallScheduleMigrationInterrupts from to])).
Proof.
  apply (planUpgrade_Err sample.SchemaNamesWithUnknown sample.StitchDefinitions
           sample.ScheduleMigrationInterrupts sample.versionRange []
           sample.stitchCallsUnknown "unknown schema").
  vm_compute. reflexivity.
Defined.

(** The calls and the steps of the sample plan. *)
Lemma planUpgrade_Ok_witness :
  sample.calls
  = [] ++ ((fun schemaName =>
              cliutil.CallStitchDefinitions schemaName cliutil.repositoryRoot
                (GitTag <$> sample.versionRange)) <$> sample.SchemaNames)
       ++ [cliutil.CallScheduleMigrationInterrupts (NewVersion 3 46) (NewVersion 4 0)]
  /\ Forall (fun step =>
               dom (cliutil.LeafMigrationIDsBySchema step)
               = list_to_set sample.SchemaNames) sample.steps
  /\ exists interrupts,
       sample.ScheduleMigrationInterrupts (NewVersion 3 46) (NewVersion 4 0)
       = Ok interrupts
       /\ cliutil.InstanceVersion <$> sample.steps
          = (MigrationInterrupt.Version <$> interrupts) ++ [NewVersion 4 0]
       /\ cliutil.OutOfBandMigrationIDs <$> sample.steps
          = (MigrationInterrupt.MigrationIDs <$> interrupts) ++ [[]].
Proof.
  apply (planUpgrade_Ok sample.SchemaNames sample.StitchDefinitions
           sample.ScheduleMigrationInterrupts sample.versionRange [] sample.calls
           sample.steps (NewVersion 3 46) (NewVersion 4 0)).
  - vm_compute. reflexivity.
  - reflexivity.
  - reflexivity.
Defined.

(** ** What [runUpgrade] prints and what the command returns *)

Lemma foldl_snoc_flat_map {A B : Type} (f : A -> list B) (l : list A) (acc : list B) :
  foldl (fun acc x => acc ++ f x) acc l = acc ++ flat_map f l.
Proof.
  revert acc. induction l as [|x l IH]; intros acc; cbn.
  - by rewrite app_nil_r.
  - rewrite IH. by rewrite <- app_assoc.
Qed.

Lemma runUpgrade_out (steps : list cliutil.upgradeStep) :
  fst (cliutil.runUpgrade steps)
  = cliutil.PrintedPlan :: flat_map cliutil.printStep steps.
Proof. unfold cliutil.runUpgrade. cbn [fst]. by rewrite foldl_snoc_flat_map. Qed.

Lemma waitedFor_app (out1 out2 : list cliutil.Printed) :
  cliutil.waitedFor (out1 ++ out2) = cliutil.waitedFor out1 ++ cliutil.waitedFor out2.
Proof. apply flat_map_app. Qed.

Lemma upgradedTo_app (out1 out2 : list cliutil.Printed) :
  cliutil.upgradedTo (out1 ++ out2) = cliutil.upgradedTo out1 ++ cliutil.upgradedTo out2.
Proof. apply flat_map_app. Qed.

Lemma waitedFor_waits (ids : list Z) :
  cliutil.waitedFor (cliutil.PrintedWaitForOutOfBand <$> ids) = ids.
Proof. induction ids as [|id ids IH]; [done|]. cbn. by f_equal. Qed.

Lemma upgradedTo_waits (ids : list Z) :
  cliutil.upgradedTo (cliutil.PrintedWaitForOutOfBand <$> ids) = [].
Proof. induction ids as [|id ids IH]; [done|]. by cbn. Qed.

Lemma waitedFor_printStep (step : cliutil.upgradeStep) :
  cliutil.waitedFor (cliutil.printStep step) = cliutil.OutOfBandMigrationIDs step.
Proof.
  unfold cliutil.printStep. rewrite waitedFor_app. cbn [cliutil.waitedFor flat_map app].
  case_decide as Hlen.
  - rewrite foldl_snoc_fmap, app_nil_l. cbn [flat_map app].
    apply waitedFor_waits.
  - destruct (cliutil.OutOfBandMigrationIDs step); [done | cbn in Hlen; lia].
Qed.

Lemma upgradedTo_printStep (step : cliutil.upgradeStep) :
  cliutil.upgradedTo (cliutil.printStep step)
  = [oobmigration.String (cliutil.InstanceVersion step)].
Proof.
  unfold cliutil.printStep. rewrite upgradedTo_app. cbn [cliutil.upgradedTo flat_map app].
  case_decide as Hlen; [|done].
  rewrite foldl_snoc_fmap, app_nil_l. cbn [flat_map app]. f_equal.
  change (cliutil.upgradedTo
            (cliutil.PrintedWaitForOutOfBand <$> cliutil.OutOfBandMigrationIDs step)
          = []).
  apply upgradedTo_waits.
Qed.

Lemma upgradedSchemas_app (out1 out2 : list cliutil.Printed) :
  cliutil.upgradedSchemas (out1 ++ out2)
  = cliutil.upgradedSchemas out1 ++ cliutil.upgradedSchemas out2.
Proof. apply flat_map_app. Qed.

Lemma upgradedSchemas_waits (ids : list Z) :
  cliutil.upgradedSchemas (cliutil.PrintedWaitForOutOfBand <$> ids) = [].
Proof. induction ids as [|id ids IH]; [done|]. by cbn. Qed.

Lemma upgradedSchemas_printStep (step : cliutil.upgradeStep) :
  cliutil.upgradedSchemas (cliutil.printStep step)
  = [cliutil.LeafMigrationIDsBySchema step].
Proof.
  unfold cliutil.printStep. rewrite upgradedSchemas_app.
  cbn [cliutil.upgradedSchemas flat_map app].
  case_decide as Hlen; [|done].
  rewrite foldl_snoc_fmap, app_nil_l. cbn [flat_map app]. f_equal.
  change (cliutil.upgradedSchemas
            (cliutil.PrintedWaitForOutOfBand <$> cliutil.OutOfBandMigrationIDs step)
          = []).
  apply upgradedSchemas_waits.
Qed.

Lemma leadingWaits_waits (ids : list Z) (rest : list cliutil.Printed) :
  cliutil.leadingWaits ((cliutil.PrintedWaitForOutOfBand <$> ids) ++ rest)
  = ids ++ cliutil.leadingWaits rest.
Proof. induction ids as [|id ids IH]; [done|]. cbn. by f_equal. Qed.

Lemma outOfBandSections_waits (ids : list Z) (rest : list cliutil.Printed) :
  cliutil.outOfBandSections ((cliutil.PrintedWaitForOutOfBand <$> ids) ++ rest)
  = cliutil.outOfBandSections rest.
Proof. induction ids as [|id ids IH]; [done|]. by cbn. Qed.

(** What is printed for a list of steps starts with no "Wait for" line. *)
Lemma leadingWaits_steps (steps : list cliutil.upgradeStep) :
  cliutil.leadingWaits (flat_map cliutil.printStep steps) = [].
Proof. by destruct steps. Qed.

(** A step prints one out-of-band section, holding its IDs, when it has IDs,
    and none when it has not. *)
Lemma outOfBandSections_printStep (step : cliutil.upgradeStep)
    (rest : list cliutil.Printed) :
  cliutil.leadingWaits rest = [] ->
  cliutil.outOfBandSections (cliutil.printStep step ++ rest)
  = (if decide (cliutil.OutOfBandMigrationIDs step <> [])
     then [cliutil.OutOfBandMigrationIDs step] else [])
    ++ cliutil.outOfBandSections rest.
Proof.
  intros Hrest. unfold cliutil.printStep. rewrite <- app_assoc.
  cbn [app cliutil.outOfBandSections].
  destruct (cliutil.OutOfBandMigrationIDs step) as [|id ids] eqn:Hids.
  - rewrite decide_False by (cbn; lia). by rewrite decide_False by (by intros []).
  - rewrite decide_True by (cbn; lia). rewrite decide_True by done.
    rewrite foldl_snoc_fmap, app_nil_l. cbn [app cliutil.outOfBandSections].
    rewrite leadingWaits_waits, outOfBandSections_waits, Hrest, app_nil_r. done.
Qed.

(** X15. [runUpgrade] always returns the error "unimplemented tho". What it
    prints starts with the plan header, names the versions of the steps in
    order, lists the schemas of each step, and asks to wait for exactly the
    out-of-band migrations of the steps, in the order of the steps and of
    their IDs. The line "Run/validate out of band migrations:" is printed
    once for every step that has out-of-band IDs, directly before the lines
    of these IDs, and not at all for a step without IDs. *)
Theorem runUpgrade_prints_plan (steps : list cliutil.upgradeStep) :
  snd (cliutil.runUpgrade steps) = Some "unimplemented tho"
  /\ head (fst (cliutil.runUpgrade steps)) = Some cliutil.PrintedPlan
  /\ cliutil.upgradedTo (fst (cliutil.runUpgrade steps))
     = (fun step => oobmigration.String (cliutil.InstanceVersion step)) <$> steps
  /\ cliutil.waitedFor (fst (cliutil.runUpgrade steps))
     = concat (cliutil.OutOfBandMigrationIDs <$> steps)
  /\ cliutil.upgradedSchemas (fst (cliutil.runUpgrade steps))
     = cliutil.LeafMigrationIDsBySchema <$> steps
  /\ cliutil.outOfBandSections (fst (cliutil.runUpgrade steps))
     = filter (fun ids => ids <> []) (cliutil.OutOfBandMigrationIDs <$> steps).
Proof.
  rewrite runUpgrade_out. split; [done|]. split; [done|].
  cbn [cliutil.upgradedTo cliutil.waitedFor cliutil.upgradedSchemas
       cliutil.outOfBandSections flat_map app].
  induction steps as [|step steps (IH1 & IH2 & IH3 & IH4)]; [done|].
  cbn [flat_map fmap list_fmap concat]. rewrite filter_cons.
  fold (cliutil.upgradedTo (cliutil.printStep step ++ flat_map cliutil.printStep steps)).
  fold (cliutil.waitedFor (cliutil.printStep step ++ flat_map cliutil.printStep steps)).
  fold (cliutil.upgradedSchemas
          (cliutil.printStep step ++ flat_map cliutil.printStep steps)).
  rewrite upgradedTo_app, waitedFor_app, upgradedSchemas_app.
  rewrite upgradedTo_printStep, waitedFor_printStep, upgradedSchemas_printStep.
  rewrite outOfBandSections_printStep by apply leadingWaits_steps.
  unfold cliutil.upgradedTo, cliutil.waitedFor, cliutil.upgradedSchemas.
  rewrite IH1, IH2, IH3, IH4. repeat (split; [done|]). by case_decide.
Qed.

Section upgrade_command.

Import cliutil.

Context {Definitions E : Type}.
Variable SchemaNames : list string.
Variable StitchDefinitions :
  string -> string -> list string -> result E (Definitions * gmap string (list Z)).
Variable ScheduleMigrationInterrupts :
  Version -> Version -> result E (list MigrationInterrupt.t).

(** X16. The [upgrade] command never reports success: whenever it returns,
    it returns an error. It has printed something exactly when that error is
    the "unimplemented tho" of [runUpgrade]. *)
Theorem Upgrade_never_succeeds (fuel : nat) (fromFlag toFlag : string)
    (log log' : list Call) (out : list Printed) (err : option (commandError E)) :
  Upgrade SchemaNames StitchDefinitions ScheduleMigrationInterrupts
    fuel fromFlag toFlag log = Some (log', out, err) ->
  is_Some err /\ (out <> [] <-> err = Some (errorsNew "unimplemented tho")).
Proof.
  unfold Upgrade.
  destruct (NewVersionFromString fromFlag) as [from [|]]; cbn [negb];
    [|intros [= <- <- <-]; split; [by eexists | by split]].
  destruct (NewVersionFromString toFlag) as [to [|]]; cbn [negb];
    [|intros [= <- <- <-]; split; [by eexists | by split]].
  destruct (MakeUpgradeRange fuel from to) as [[versionRange|e]|] eqn:Hrange;
    [| |done].
  - destruct (planUpgrade _ _ _ versionRange log) as [log1 [steps|e]].
    + pose proof (runUpgrade_out steps) as Hout.
      unfold runUpgrade in *. cbn [fst] in Hout.
      intros [= <- <- <-]. split; [by eexists|]. rewrite Hout. by split.
    + intros [= <- <- <-]. split; [by eexists | by split].
  - apply MakeUpgradeRange_Err_inv in Hrange as [_ ->].
    intros [= <- <- <-]. split; [by eexists|]. by split.
Qed.

(** X17. A malformed [-from], a malformed [-to] or an inverted range make
    the [upgrade] command fail before it calls a collaborator or prints
    anything; a malformed [-from] is the one reported when both flags are
    malformed. *)
Theorem Upgrade_rejects_early (fuel : nat) (fromFlag toFlag : string)
    (log : list Call) :
  (snd (NewVersionFromString fromFlag) = false ->
     Upgrade SchemaNames StitchDefinitions ScheduleMigrationInterrupts
       fuel fromFlag toFlag log
     = Some (log, [], Some (errorsNew "bad format for -from")))
  /\ (snd (NewVersionFromString fromFlag) = true ->
      snd (NewVersionFromString toFlag) = false ->
      Upgrade SchemaNames StitchDefinitions ScheduleMigrationInterrupts
        fuel fromFlag toFlag log
      = Some (log, [], Some (errorsNew "bad format for -to")))
  /\ (snd (NewVersionFromString fromFlag) = true ->
      snd (NewVersionFromString toFlag) = true ->
      CompareVersions (fst (NewVersionFromString fromFlag))
                      (fst (NewVersionFromString toFlag)) = VersionOrderAfter ->
      Upgrade SchemaNames StitchDefinitions ScheduleMigrationInterrupts
        fuel fromFlag toFlag log
      = Some (log, [],
              Some (errorsNew (invalidRange (fst (NewVersionFromString fromFlag))
                                            (fst (NewVersionFromString toFlag)))))).
Proof.
  unfold Upgrade.
  destruct (NewVersionFromString fromFlag) as [from okFrom].
  destruct (NewVersionFromString toFlag) as [to okTo].
  cbn [fst snd]. split; [|split].
  - by intros ->.
  - by intros -> ->.
  - intros -> -> Hafter. cbn [negb].
    by rewrite (MakeUpgradeRange_inverted fuel from to Hafter).
Qed.

End upgrade_command.

(** The sample upgrade from 3.46 to 4.0, run through the command. *)
Example Upgrade_sample :
  cliutil.Upgrade sample.SchemaNames sample.StitchDefinitions
    sample.ScheduleMigrationInterrupts 4 "3.46" "v4.0.0" []
  = Some (sample.calls, sample.printed,
          Some (cliutil.errorsNew "unimplemented tho")).
Proof. vm_compute. reflexivity. Qed.

Example Upgrade_inverted :
  cliutil.Upgrade sample.SchemaNames sample.StitchDefinitions
    sample.ScheduleMigrationInterrupts 0 "4.0" "3.9" []
  = Some ([], [], Some (cliutil.errorsNew "invalid range (from=4.0 > to=3.9)")).
Proof. vm_compute. reflexivity. Qed.

(** The command on the sample upgrade. *)
Lemma Upgrade_never_succeeds_witness :
  is_Some (Some (@cliutil.errorsNew string "unimplemented tho"))
  /\ (sample.printed <> []
      <-> Some (@cliutil.errorsNew string "unimplemented tho")
          = Some (cliutil.errorsNew "unimplemented tho")).
Proof.
  apply (Upgrade_never_succeeds sample.SchemaNames sample.StitchDefinitions
           sample.ScheduleMigrationInterrupts 4 "3.46" "v4.0.0" [] sample.calls
           sample.printed (Some (cliutil.errorsNew "unimplemented tho"))).
  vm_compute. reflexivity.
Defined.

(** ** The calls [Up] makes to the store *)

Section up_facts.

Import migrations.

Context {Tx Spec E : Type}.
Variable Transact : result E Tx.
Variable ListChangesetSpecs : Tx -> ListChangesetSpecsOpts -> Tx * result E (list Spec).
Variable MigrateChangesetSpec : Tx -> Spec -> Tx * option E.
Variable Done : Tx -> option (wrapped E) -> option (wrapped E).

Local Abbreviation migratedTx := (migrations.migratedTx MigrateChangesetSpec).
Local Abbreviation migrateLoop := (migrations.migrateLoop MigrateChangesetSpec).
Local Abbreviation UpCall := (@migrations.UpCall Spec E).

Lemma migratedTx_cons (tx : Tx) (cs : Spec) (specs : list Spec) :
  migratedTx tx (cs :: specs) = migratedTx (fst (MigrateChangesetSpec tx cs)) specs.
Proof. done. Qed.

Lemma migratedTx_snoc (tx : Tx) (cs : Spec) (specs : list Spec) :
  migratedTx tx (specs ++ [cs])
  = fst (MigrateChangesetSpec (migratedTx tx specs) cs).
Proof. unfold migrations.migratedTx. by rewrite foldl_app. Qed.

(** The loop when no call fails. *)
Lemma migrateLoop_all (tx : Tx) (specs : list Spec) (calls : list UpCall) :
  (forall i cs, specs !! i = Some cs ->
     snd (MigrateChangesetSpec (migratedTx tx (take i specs)) cs) = None) ->
  migrateLoop tx specs calls
  = (migratedTx tx specs, calls ++ (CallMigrateChangesetSpec <$> specs), None).
Proof.
  revert tx calls. induction specs as [|cs specs IH]; intros tx calls Hall.
  - cbn. by rewrite app_nil_r.
  - pose proof (Hall 0%nat cs eq_refl) as Hcs. cbn [take] in Hcs.
    change (migratedTx tx []) with tx in Hcs.
    rewrite migratedTx_cons. cbn [migrations.migrateLoop].
    destruct (MigrateChangesetSpec tx cs) as [tx' [e|]] eqn:Hcall; [done|].
    cbn [fst]. rewrite IH.
    + by rewrite fmap_cons, <- app_assoc.
    + intros i c Hi. specialize (Hall (S i) c Hi).
      cbn [take] in Hall. rewrite migratedTx_cons, Hcall in Hall. done.
Qed.

(** The loop when a call fails. *)
Lemma migrateLoop_first_failure (tx : Tx) (pre : list Spec) (cs : Spec)
    (post : list Spec) (e : E) (calls : list UpCall) :
  (forall i c, pre !! i = Some c ->
     snd (MigrateChangesetSpec (migratedTx tx (take i pre)) c) = None) ->
  snd (MigrateChangesetSpec (migratedTx tx pre) cs) = Some e ->
  migrateLoop tx (pre ++ cs :: post) calls
  = (migratedTx tx (pre ++ [cs]),
     calls ++ (CallMigrateChangesetSpec <$> pre ++ [cs]),
     Some (Wrap e "migrating changeset spec")).
Proof.
  revert tx calls. induction pre as [|c pre IH]; intros tx calls Hpre Hcs.
  - cbn [app migrations.migrateLoop]. rewrite migratedTx_cons.
    change (migratedTx tx []) with tx in Hcs.
    destruct (MigrateChangesetSpec tx cs) as [tx' [e'|]] eqn:Hcall; [|done].
    cbn [snd] in Hcs. injection Hcs as ->. done.
  - pose proof (Hpre 0%nat c eq_refl) as Hc. cbn [take] in Hc.
    change (migratedTx tx []) with tx in Hc.
    rewrite <- !app_comm_cons, migratedTx_cons. rewrite migratedTx_cons in Hcs.
    cbn [migrations.migrateLoop].
    destruct (MigrateChangesetSpec tx c) as [tx' [e'|]] eqn:Hcall; [done|].
    cbn [fst] in *. rewrite (IH tx' _).
    + by rewrite fmap_cons, <- app_assoc.
    + intros i c' Hi. specialize (Hpre (S i) c' Hi).
      cbn [take] in Hpre. rewrite migratedTx_cons, Hcall in Hpre. done.
    + done.
Qed.

(** Whatever the store does, the loop calls [MigrateChangesetSpec] on a
    prefix of the specs, on all of them when it returns nil. *)
Lemma migrateLoop_prefix (tx : Tx) (specs : list Spec) (calls : list UpCall) :
  exists attempted ferr,
    migrateLoop tx specs calls
    = (migratedTx tx attempted, calls ++ (CallMigrateChangesetSpec <$> attempted), ferr)
    /\ attempted `prefix_of` specs
    /\ match ferr with
       | None => attempted = specs
       | Some w => attempted <> [] /\ exists e, w = Wrap e "migrating changeset spec"
       end.
Proof.
  revert tx calls. induction specs as [|cs specs IH]; intros tx calls.
  - exists [], None. cbn. by rewrite app_nil_r.
  - cbn [migrations.migrateLoop].
    destruct (MigrateChangesetSpec tx cs) as [tx' [e|]] eqn:Hcall.
    + exists [cs], (Some (Wrap e "migrating changeset spec")).
      split; [|split; [|split]].
      * unfold migrations.migratedTx. cbn [foldl]. by rewrite Hcall.
      * by exists specs.
      * done.
      * by exists e.
    + destruct (IH tx' (calls ++ [CallMigrateChangesetSpec cs]))
        as (attempted & ferr & -> & Hprefix & Hferr).
      exists (cs :: attempted), ferr. split; [|split].
      * rewrite migratedTx_cons, Hcall, fmap_cons, <- app_assoc. done.
      * by apply prefix_cons.
      * destruct ferr as [w|]; [|by f_equal].
        destruct Hferr as [_ He]. done.
Qed.

(** X19. [Up] starts one transaction. When that fails, it calls nothing
    else and returns the error wrapped with "starting transaction".
    Otherwise it lists once, asking for at most 100 specs that require
    migration, calls [MigrateChangesetSpec] on a prefix of the specs listed,
    in their order, then calls [Done] once with the error of the calls so
    far, and returns what [Done] returns. That error is the wrapped error of
    the listing, with no spec migrated, or nil, with every spec listed
    migrated, or an error wrapped with "migrating changeset spec". *)
Theorem Up_transaction_calls :
  let opts := {| Limit := 100; RequiresMigration := true |} in
  match Transact with
  | Err e =>
      Up Transact ListChangesetSpecs MigrateChangesetSpec Done
      = ([CallTransact], Some (Wrap e "starting transaction"))
  | Ok tx =>
      exists tx' attempted ferr,
        Up Transact ListChangesetSpecs MigrateChangesetSpec Done
        = (CallTransact :: CallListChangesetSpecs opts
             :: (CallMigrateChangesetSpec <$> attempted) ++ [CallDone ferr],
           Done tx' ferr)
        /\ match snd (ListChangesetSpecs tx opts) with
           | Err e => attempted = [] /\ ferr = Some (Wrap e "listing changeset specs")
           | Ok specs =>
               attempted `prefix_of` specs
               /\ match ferr with
                  | None => attempted = specs
                  | Some w =>
                      attempted <> []
                      /\ exists e, w = Wrap e "migrating changeset spec"
                  end
           end
  end.
Proof.
  intros opts. unfold Up. destruct Transact as [tx|e]; [|done].
  unfold upBody. change changesetSpecMigrationCountPerRun with 100.
  fold opts. destruct (ListChangesetSpecs tx opts) as [tx1 [specs|e]]; cbn [snd].
  - destruct (migrateLoop_prefix tx1 specs ([CallTransact] ++ [CallListChangesetSpecs opts]))
      as (attempted & ferr & -> & Hprefix & Hferr).
    exists (migratedTx tx1 attempted), attempted, ferr. split; [|done].
    by rewrite <- !app_assoc.
  - exists tx1, [], (Some (Wrap e "listing changeset specs")). done.
Qed.

(** X20. When the transaction starts, the listing succeeds and every
    [MigrateChangesetSpec] succeeds on the transaction as the calls before
    it left it, [Up] migrates every spec listed, in order, and calls [Done]
    with nil. *)
Theorem Up_migrates_all (tx tx1 : Tx) (specs : list Spec) :
  let opts := {| Limit := 100; RequiresMigration := true |} in
  Transact = Ok tx ->
  ListChangesetSpecs tx opts = (tx1, Ok specs) ->
  (forall i cs, specs !! i = Some cs ->
     snd (MigrateChangesetSpec
            (migrations.migratedTx MigrateChangesetSpec tx1 (take i specs)) cs) = None) ->
  Up Transact ListChangesetSpecs MigrateChangesetSpec Done
  = (CallTransact :: CallListChangesetSpecs opts
       :: (CallMigrateChangesetSpec <$> specs) ++ [CallDone None],
     Done (migrations.migratedTx MigrateChangesetSpec tx1 specs) None).
Proof.
  intros opts HTransact HList Hall. unfold Up, upBody. rewrite HTransact.
  change changesetSpecMigrationCountPerRun with 100. fold opts. rewrite HList.
  rewrite migrateLoop_all by done. by rewrite <- !app_assoc.
Qed.

(** X21. [Up] stops at the first spec whose migration fails: the specs
    before it are migrated, in order, none after it is touched, and [Done]
    receives that error wrapped with "migrating changeset spec". *)
Theorem Up_stops_at_first_failure (tx tx1 : Tx) (pre : list Spec) (cs : Spec)
    (post : list Spec) (e : E) :
  let opts := {| Limit := 100; RequiresMigration := true |} in
  Transact = Ok tx ->
  ListChangesetSpecs tx opts = (tx1, Ok (pre ++ cs :: post)) ->
  (forall i c, pre !! i = Some c ->
     snd (MigrateChangesetSpec
            (migrations.migratedTx MigrateChangesetSpec tx1 (take i pre)) c) = None) ->
  snd (MigrateChangesetSpec (migrations.migratedTx MigrateChangesetSpec tx1 pre) cs)
  = Some e ->
  Up Transact ListChangesetSpecs MigrateChangesetSpec Done
  = (CallTransact :: CallListChangesetSpecs opts
       :: (CallMigrateChangesetSpec <$> pre ++ [cs])
       ++ [CallDone (Some (Wrap e "migrating changeset spec"))],
     Done (migrations.migratedTx MigrateChangesetSpec tx1 (pre ++ [cs]))
          (Some (Wrap e "migrating changeset spec"))).
Proof.
  intros opts HTransact HList Hpre Hcs. unfold Up, upBody. rewrite HTransact.
  change changesetSpecMigrationCountPerRun with 100. fold opts. rewrite HList.
  rewrite (migrateLoop_first_failure tx1 pre cs post e) by done.
  by rewrite <- !app_assoc.
Qed.

End up_facts.

(** [Up] on a store where every migration succeeds. *)
Lemma Up_migrates_all_witness :
  migrations.Up sample.Transact sample.ListChangesetSpecs
    (fun tx cs => (tx ++ [cs], None)) sample.Done
  = ([ migrations.CallTransact;
       migrations.CallListChangesetSpecs
         {| migrations.Limit := 100; migrations.RequiresMigration := true |};
       migrations.CallMigrateChangesetSpec 10;
       migrations.CallMigrateChangesetSpec 20;
       migrations.CallMigrateChangesetSpec 30;
       migrations.CallDone None ], None).
Proof.
  apply (Up_migrates_all sample.Transact sample.ListChangesetSpecs
           (fun tx cs => (tx ++ [cs], None)) sample.Done [] [] [10; 20; 30]).
  - reflexivity.
  - reflexivity.
  - intros i cs _. reflexivity.
Defined.

(** [Up] on the sample store, where migrating the second spec fails. *)
Lemma Up_stops_at_first_failure_witness :
  migrations.Up sample.Transact sample.ListChangesetSpecs
    sample.MigrateChangesetSpec sample.Done
  = (sample.upCalls, Some (migrations.Wrap "deadlock" "migrating changeset spec")).
Proof.
  apply (Up_stops_at_first_failure sample.Transact sample.ListChangesetSpecs
           sample.MigrateChangesetSpec sample.Done [] [] [10] 20 [30] "deadlock").
  - reflexivity.
  - reflexivity.
  - intros [|i] c [= <-]. reflexivity.
  - reflexivity.
Defined.
